(** * irlib: kernels, singular-value truncation and the basis facade

    A shallow embedding of [c++/include/irlib/kernel.hpp] and
    [c++/include/irlib/basis.hpp].

    Numbers.  The kernels use [exp], [cosh] and [sinh], so they are embedded
    over the real numbers of the Standard Library: every [mpfr::mpreal]
    operation is taken exact.  The truncation loop, the monotonicity check,
    the sign loop and the facade only compare, divide and negate, so they
    are embedded over [Q] and stay executable; the one rounding step of that
    code, [static_cast<double>], is kept as an explicit function.

    Integers.  [int] values are in [Z]; [size_t] is 64 bits wide, and the
    conversions of mixed comparisons and subtractions are written out.

    Build.  [assert] and [python_runtime_check] depend on how the library is
    built; both are modelled behind a flag.

    Code that is not among the sources (common.hpp, piecewise_polynomial.hpp,
    detail/aux.hpp) and the numerical libraries (Eigen, MPFR) enter as an
    interface and as parameters; their routines are taken to return. *)

From Stdlib Require Import Reals Lra.
From Stdlib Require Import String.
From Stdlib Require Import ZArith QArith Qpower Qabs Lia List Bool.
From Stdlib Require Lqa.
Import ListNotations.

(** ** Kernels (kernel.hpp, lines 45-129) *)

Module Kernel.
Local Open Scope R_scope.

(** [const double limit = 200.0;] *)
Definition limit : R := 200.

(** The literal [1e-30] of [bosonic_kernel::operator()]. *)
Definition tiny : R := / 10 ^ 30.

(** [mpfr::mpreal("0.5") * mpfr::mpreal(Lambda_)] *)
Definition half_Lambda (Lambda_ : R) : R := (1 / 2) * Lambda_.

(** [fermionic_kernel::operator()(x, y)] for a kernel built with [Lambda_]. *)
Definition fermionic_kernel (Lambda_ x y : R) : R :=
  let hl := half_Lambda Lambda_ in
  if Rgt_dec (Lambda_ * y) limit then
    exp (- hl * x * y - hl * y)
  else if Rlt_dec (Lambda_ * y) (- limit) then
    exp (- hl * x * y + hl * y)
  else
    exp (- hl * x * y) / (2 * cosh (hl * y)).

(** [bosonic_kernel::operator()(x, y)] for a kernel built with [Lambda_]. *)
Definition bosonic_kernel (Lambda_ x y : R) : R :=
  let hl := half_Lambda Lambda_ in
  if Rlt_dec (Rabs (Lambda_ * y)) tiny then
    exp (- hl * x * y) / Lambda_
  else if Rgt_dec (Lambda_ * y) limit then
    y * exp (- hl * x * y - hl * y)
  else if Rlt_dec (Lambda_ * y) (- limit) then
    - y * exp (- hl * x * y + hl * y)
  else
    y * exp (- hl * x * y) / (2 * sinh (hl * y)).

(** The bosonic kernel as the specification words it: the fermionic branch
    structure with [sinh] for [cosh] and the leading factor [y] in all three
    branches. *)
Definition bosonic_kernel_as_worded (Lambda_ x y : R) : R :=
  if Rlt_dec (Rabs (Lambda_ * y)) tiny then
    exp (- (Lambda_ / 2) * x * y) / Lambda_
  else if Rgt_dec (Lambda_ * y) limit then
    y * exp (- (Lambda_ / 2) * x * y - (Lambda_ / 2) * y)
  else if Rlt_dec (Lambda_ * y) (- limit) then
    y * exp (- (Lambda_ / 2) * x * y + (Lambda_ / 2) * y)
  else
    y * exp (- (Lambda_ / 2) * x * y) / (2 * sinh ((Lambda_ / 2) * y)).

End Kernel.

(** ** Results of fallible code *)

Module Outcome.

(** What a call can end in.  [Throw what] is [throw std::runtime_error(what)],
    the only exception type the two headers raise.  [Aborted] is a failed
    [assert], which ends the process.  [OutOfBounds] is a read past the end
    of a [std::vector] or an Eigen vector, which C++ leaves undefined.
    [OutOfFuel] is an artefact of the fuel that bounds the model of the one
    loop whose bound is computed in wrapping arithmetic; the development
    shows it is never returned. *)
Inductive result (A : Type) : Type :=
| Ok (a : A)
| Throw (what : string)
| Aborted
| OutOfBounds
| OutOfFuel.

Arguments Ok {A} a.
Arguments Throw {A} what.
Arguments Aborted {A}.
Arguments OutOfBounds {A}.
Arguments OutOfFuel {A}.

Definition bind {A B : Type} (r : result A) (k : A -> result B) : result B :=
  match r with
  | Ok a => k a
  | Throw what => Throw what
  | Aborted => Aborted
  | OutOfBounds => OutOfBounds
  | OutOfFuel => OutOfFuel
  end.

Notation "x <- r ;; k" := (bind r (fun x => k))
  (at level 61, r at next level, right associativity).

(** [assert(condition)]: nothing when assertions are compiled out
    ([NDEBUG]), the end of the process when they are compiled in and the
    condition is false. *)
Definition assert_ (enabled condition : bool) : result unit :=
  if enabled && negb condition then Aborted else Ok tt.

(** [v[i]] on a vector of the standard library or of Eigen. *)
Definition at_ {A : Type} (v : list A) (i : nat) : result A :=
  match nth_error v i with
  | Some x => Ok x
  | None => OutOfBounds
  end.

(** [v[l]] for an [int] index: converted to [size_t], a negative index is
    past the end of every vector. *)
Definition at_int {A : Type} (v : list A) (l : Z) : result A :=
  if (l <? 0)%Z then OutOfBounds else at_ v (Z.to_nat l).

(** [v[i] = x] for an index in range. *)
Fixpoint assign {A : Type} (v : list A) (i : nat) (x : A) : list A :=
  match v, i with
  | [], _ => []
  | _ :: t, O => x :: t
  | h :: t, S j => h :: assign t j x
  end.

(** [v.push_back(x)] *)
Definition push_back {A : Type} (v : list A) (x : A) : list A := v ++ [x].

(** [v.size()], a [size_t]. *)
Definition size {A : Type} (v : list A) : Z := Z.of_nat (length v).

(** [size_t] is 64 bits wide; an [int] operand of a mixed comparison or
    subtraction is converted to it, wrapping modulo [2^64]. *)
Definition size_t_modulus : Z := 2 ^ 64.
Definition to_size_t (z : Z) : Z := z mod size_t_modulus.



(** The values an [int] can hold. *)
Definition is_int (z : Z) : Prop := (- 2 ^ 31 <= z < 2 ^ 31)%Z.

End Outcome.

(** ** Truncation and merge of the two SVDs (kernel.hpp, lines 254-279) *)

Module Truncation.
Import Outcome.
Local Open Scope Q_scope.

Definition Qlt_bool (a b : Q) : bool := negb (Qle_bool b a).

(** A quotient of two finite [mpreal] values: division by zero gives an
    infinity or a NaN, as MPFR does (a zero divisor is taken as +0: the
    divisor of the code is a singular value). *)
Inductive mpreal : Type :=
| Finite (q : Q)
| PlusInf
| MinusInf
| NaN.

Definition mp_div (a b : Q) : mpreal :=
  if Qeq_bool b 0 then
    match Qcompare a 0 with
    | Eq => NaN
    | Gt => PlusInf
    | Lt => MinusInf
    end
  else Finite (a / b).

(** [a < c] for a finite [c]; every comparison with a NaN is false. *)
Definition mp_lt (a : mpreal) (c : Q) : bool :=
  match a with
  | Finite q => Qlt_bool q c
  | PlusInf => false
  | MinusInf => true
  | NaN => false
  end.

Definition vector_t : Type := list Q.

(** What the code reads from an [Eigen::BDCSVD]: the singular values and the
    columns of [matrixU()] and [matrixV()]. *)
Record BDCSVD : Type := {
  singularValues : list Q;
  matrixU : list vector_t;
  matrixV : list vector_t
}.

(** The three vectors the loop fills. *)
Record picked : Type := {
  sv : list Q;
  Uvec : list vector_t;
  Vvec : list vector_t
}.

Definition push (p : picked) (s : Q) (u v : vector_t) : picked :=
  {| sv := push_back (sv p) s;
     Uvec := push_back (Uvec p) u;
     Vvec := push_back (Vvec p) v |}.

Definition no_pick : picked := {| sv := []; Uvec := []; Vvec := [] |}.

Section Loops.

(** [static_cast<double>] on an [mpreal]. *)
Variable to_double : Q -> Q.

(** The body of [for (int i=0; i < svd_even.singularValues().size(); ++i)],
    with [n] the iterations left.  The two tests short-circuit: a full
    [sv] ends the loop before the singular value is read. *)
Fixpoint pick_loop (n : nat) (i : nat) (svd_even svd_odd : BDCSVD)
    (max_dim : Z) (sv_cutoff s0 : Q) (p : picked) : result picked :=
  match n with
  | O => Ok p
  | S n' =>
      if (size (sv p) =? to_size_t max_dim)%Z then Ok p else
      se <- at_ (singularValues svd_even) i ;;
      if mp_lt (mp_div se s0) sv_cutoff then Ok p else
      ue <- at_ (matrixU svd_even) i ;;
      ve <- at_ (matrixV svd_even) i ;;
      let p1 := push p (to_double se) ue ve in
      if (size (sv p1) =? to_size_t max_dim)%Z then Ok p1 else
      so <- at_ (singularValues svd_odd) i ;;
      if mp_lt (mp_div so s0) sv_cutoff then Ok p1 else
      uo <- at_ (matrixU svd_odd) i ;;
      vo <- at_ (matrixV svd_odd) i ;;
      pick_loop n' (S i) svd_even svd_odd max_dim sv_cutoff s0
        (push p1 (to_double so) uo vo)
  end.

(** Lines 255-271: read [s0], then run the loop from empty vectors. *)
Definition pick (svd_even svd_odd : BDCSVD) (max_dim : Z) (sv_cutoff : Q)
  : result picked :=
  s0 <- at_ (singularValues svd_even) 0 ;;
  pick_loop (length (singularValues svd_even)) 0 svd_even svd_odd
    max_dim sv_cutoff s0 no_pick.

End Loops.

Definition what_not_decreasing : string :=
  "Singular values are not in decreasing order. This may be due to numerical round erros. You may ask for fewer basis functions!".

(** The bound [sv.size()-1] of the check loop, computed in [size_t]. *)
Definition check_bound (sv : list Q) : Z := to_size_t (size sv - 1).

(** [for (int l=0; l<sv.size()-1; ++l) if (sv[l] < sv[l+1]) throw ...]:
    [l] is converted to [size_t] for the comparison. *)
Fixpoint check_loop (fuel : nat) (sv : list Q) (l : Z) : result unit :=
  match fuel with
  | O => OutOfFuel
  | S fuel' =>
      if (to_size_t l <? check_bound sv)%Z then
        a <- at_ sv (Z.to_nat l) ;;
        b <- at_ sv (Z.to_nat (l + 1)) ;;
        if Qlt_bool a b then Throw what_not_decreasing
        else check_loop fuel' sv (l + 1)
      else Ok tt
  end.

(** Lines 274-279.  One more step than [sv] has elements is enough. *)
Definition check_decreasing (sv : list Q) : result unit :=
  check_loop (S (length sv)) sv 0.

(** *** The merge as the specification words it *)

(** A singular triple: value, left vector, right vector. *)
Definition triple : Type := (Q * vector_t * vector_t)%type.

Definition sigma (t : triple) : Q := fst (fst t).

Fixpoint zip3 (s : list Q) (u v : list vector_t) : list triple :=
  match s, u, v with
  | a :: s', b :: u', c :: v' => (a, b, c) :: zip3 s' u' v'
  | _, _, _ => []
  end.

Definition triples (d : BDCSVD) : list triple :=
  zip3 (singularValues d) (matrixU d) (matrixV d).

(** The stopping test of the specification: the count has reached
    [max_dim], or the value relative to [sigma0] is below the cutoff. *)
Definition stops (count max_dim : Z) (cutoff sigma0 : Q) (t : triple) : bool :=
  (count =? max_dim)%Z || mp_lt (mp_div (sigma t) sigma0) cutoff.

(** Lock-step emission: the i-th even triple, then the i-th odd triple, each
    under the stopping test, until one of them stops. *)
Fixpoint lockstep (count max_dim : Z) (cutoff sigma0 : Q)
    (even odd : list triple) : list triple :=
  match even, odd with
  | e :: even', o :: odd' =>
      if stops count max_dim cutoff sigma0 e then []
      else e ::
        (if stops (count + 1) max_dim cutoff sigma0 o then []
         else o :: lockstep (count + 2) max_dim cutoff sigma0 even' odd')
  | _, _ => []
  end.

(** The reference of every relative comparison: the leading even value. *)
Definition leading (even : list triple) : Q :=
  match even with
  | e :: _ => sigma e
  | [] => 0
  end.

Definition merge_as_worded (max_dim : Z) (cutoff : Q)
    (even odd : list triple) : list triple :=
  lockstep 0 max_dim cutoff (leading even) even odd.

(** The candidates in merged order: even 0, odd 0, even 1, odd 1, ... *)
Fixpoint interleave {A : Type} (even odd : list A) : list A :=
  match even, odd with
  | e :: even', o :: odd' => e :: o :: interleave even' odd'
  | _, _ => []
  end.

(** The singular value that merged index [l] is taken from. *)
Definition candidate (svd_even svd_odd : BDCSVD) (l : nat) : option Q :=
  nth_error (interleave (singularValues svd_even) (singularValues svd_odd)) l.

(** A triple as the loop stores it: the value cast to [double]. *)
Definition rounded (to_double : Q -> Q) (t : triple) : triple :=
  (to_double (sigma t), snd (fst t), snd t).

Definition picked_triples (p : picked) : list triple :=
  zip3 (sv p) (Uvec p) (Vvec p).

(** [sigma / s0 < cutoff] is false: the value is kept. *)
Definition kept (s0 cutoff s : Q) : Prop :=
  mp_lt (mp_div s s0) cutoff = false.

(** The first index [l] with [sv[l] < sv[l+1]], if there is one. *)
Fixpoint first_violation (sv : list Q) : option nat :=
  match sv with
  | [] => None
  | a :: rest =>
      match rest with
      | [] => None
      | b :: _ =>
          if Qlt_bool a b then Some O
          else option_map S (first_violation rest)
      end
  end.

Definition non_increasing (sv : list Q) : Prop := first_violation sv = None.

(** A full decomposition of a square matrix has as many columns in
    [matrixU()] and [matrixV()] as singular values. *)
Definition square (d : BDCSVD) : Prop :=
  length (matrixU d) = length (singularValues d) /\
  length (matrixV d) = length (singularValues d).

(** The two matrices have the same size, and twice that size is an
    [int]. *)
Definition well_formed (svd_even svd_odd : BDCSVD) : Prop :=
  square svd_even /\ square svd_odd /\
  length (singularValues svd_odd) = length (singularValues svd_even) /\
  (2 * size (singularValues svd_even) < 2 ^ 31)%Z.

End Truncation.

(** ** Basis construction and the facade (kernel.hpp 228-390, basis.hpp) *)

Module Basis.
Import Outcome Truncation.
Local Open Scope Q_scope.

Inductive statistics_type : Type := FERMIONIC | BOSONIC.

(** What the construction reads of a kernel object. *)
Record kernel : Type := {
  get_statistics : statistics_type;
  Lambda : Q
}.

Definition fermionic (Lambda_ : Q) : kernel :=
  {| get_statistics := FERMIONIC; Lambda := Lambda_ |}.

Definition bosonic (Lambda_ : Q) : kernel :=
  {| get_statistics := BOSONIC; Lambda := Lambda_ |}.

(** The symmetrised kernel a matrix is built from: [kernel_even] is
    [K(x,y) + K(x,-y)], [kernel_odd] is [K(x,y) - K(x,-y)]. *)
Inductive sector : Type := Even | Odd.

(** The members of [piecewise_polynomial] the code calls:
    [p.compute_value(x)], [c * p] and [p.num_sections()].
    piecewise_polynomial.hpp is not among the sources, so the class is an
    interface here. *)
Class PiecewisePolynomial (pp : Type) : Type := {
  compute_value : pp -> Q -> Q;
  scale : Q -> pp -> pp;
  num_sections : pp -> Z
}.

(** Scaling a function scales its values. *)
Definition scale_scales_values {pp : Type} `{PiecewisePolynomial pp} : Prop :=
  forall (c : Q) (p : pp) (x : Q),
    compute_value (scale c p) x == c * compute_value p x.

(** What the two headers take from the build and from code that is not
    among the sources (common.hpp, detail/aux.hpp, Eigen, MPFR).  The
    numerical routines receive the working precision, which the source keeps
    in a process-wide default. *)
Class Externals (pp : Type) : Type := {
  (** [static_cast<double>] on an [mpreal] *)
  to_double : Q -> Q;
  (** whether [assert] is compiled in ([NDEBUG] is not defined) *)
  assertions : bool;
  (** whether [python_runtime_check] raises *)
  python_checks : bool;
  (** [mpreal::get_default_prec()] when construction starts *)
  default_prec : Z;
  (** [static_cast<int>(3.33333*(std::log10(1/sv_cutoff) + 15))] *)
  min_prec_of : Q -> Z;
  (** [compute_approximate_nodes_even_sector(kernel, 250, 1e-12)] at a
      working precision: the nodes in x and in y *)
  compute_approximate_nodes_even_sector :
    Z -> kernel -> Z -> Q -> list Q * list Q;
  (** [Eigen::BDCSVD] of [matrix_rep] of the symmetrised kernel *)
  matrix_rep_svd :
    Z -> sector -> kernel -> list Q -> list Q -> Z -> Z -> BDCSVD;
  (** one turn of the loop over [vectors] in the lambda [gen_pp], after
      its assertion: the coefficients of vector number [v] from the tables
      of detail/aux.hpp, and the piecewise polynomial built from
      [section_edges_pp] and them *)
  gen_pp_vector : Z -> Z -> list Q -> list Q -> nat -> vector_t -> pp
}.

(** Modelled from the spec: common.hpp, which defines
    [python_runtime_check], is not among the sources.  A failed index or
    domain check is an input-validation error raised to the caller: the
    check raises [message] as a runtime error when the checks are compiled
    in, and does nothing otherwise. *)
Definition python_runtime_check (enabled b : bool) (message : string)
  : result unit :=
  if enabled && negb b then Throw message else Ok tt.

Section Construction.

Context {pp : Type} {PP : PiecewisePolynomial pp} {E : Externals pp}.

(** [std::sort] on the edges. *)
Fixpoint insert_sorted (x : Q) (l : list Q) : list Q :=
  match l with
  | [] => [x]
  | y :: l' => if Qle_bool x y then x :: l else y :: insert_sorted x l'
  end.

Definition sort (l : list Q) : list Q := fold_right insert_sorted [] l.

(** [section_edges_pp]: 0, and every edge but the first with its mirror
    image, as doubles, sorted. *)
Definition mirrored_edges (section_edges : list Q) : list Q :=
  sort (0 :: flat_map (fun e => [to_double e; to_double (- e)])
                      (tl section_edges)).

(** [(vectors[v].transpose() * vectors[v])(0,0)] *)
Definition squared_norm (vec : vector_t) : Q :=
  fold_right (fun a acc => a * a + acc) 0 vec.

(** The loop over [vectors] in the lambda [gen_pp], from vector number
    [v] on. *)
Fixpoint gen_pp_loop (prec Nl : Z) (section_edges section_edges_pp : list Q)
    (v : nat) (vectors : list vector_t) : result (list pp) :=
  match vectors with
  | [] => Ok []
  | vec :: rest =>
      _ <- assert_ assertions
             (Qlt_bool (Qabs (squared_norm vec - 1)) (1 # 100000000)) ;;
      rest_pp <- gen_pp_loop prec Nl section_edges section_edges_pp
                   (S v) rest ;;
      Ok (gen_pp_vector prec Nl section_edges section_edges_pp v vec
          :: rest_pp)
  end.

(** The lambda [gen_pp]: the mirrored edges, the assertion on their number
    (both sides in [size_t]), then one piecewise polynomial for each vector,
    in order. *)
Definition gen_pp (prec Nl : Z) (section_edges : list Q)
    (vectors : list vector_t) : result (list pp) :=
  let section_edges_pp := mirrored_edges section_edges in
  _ <- assert_ assertions
         (to_size_t (size section_edges_pp - 1)
          =? to_size_t (2 * to_size_t (size section_edges - 1)))%Z ;;
  gen_pp_loop prec Nl section_edges section_edges_pp 0 vectors.

(** [u.compute_value(1) < 0]: the test of the sign loop. *)
Definition flipped (u : pp) : bool := Qlt_bool (compute_value u 1) 0.

(** [-1.0 * p] where the sign is flipped, [p] where it is not. *)
Definition with_sign (flip : bool) (p : pp) : pp :=
  if flip then scale (-1) p else p.

(** Lines 335-340, with [n] the iterations left. *)
Fixpoint fix_signs (n : nat) (i : nat) (u_basis_pp v_basis_pp : list pp)
  : result (list pp * list pp) :=
  match n with
  | O => Ok (u_basis_pp, v_basis_pp)
  | S n' =>
      ui <- at_ u_basis_pp i ;;
      if flipped ui then
        vi <- at_ v_basis_pp i ;;
        fix_signs n' (S i)
          (assign u_basis_pp i (scale (-1) ui))
          (assign v_basis_pp i (scale (-1) vi))
      else fix_signs n' (S i) u_basis_pp v_basis_pp
  end.

Definition generate_ir_basis_functions_impl (prec : Z) (knl : kernel)
    (max_dim : Z) (sv_cutoff : Q) (Nl num_nodes_gauss_legendre : Z)
    (section_edges_x section_edges_y : list Q)
  : result (list Q * list pp * list pp) :=
  let svd_even := matrix_rep_svd prec Even knl section_edges_x section_edges_y
                    num_nodes_gauss_legendre Nl in
  let svd_odd := matrix_rep_svd prec Odd knl section_edges_x section_edges_y
                   num_nodes_gauss_legendre Nl in
  p <- pick to_double svd_even svd_odd max_dim sv_cutoff ;;
  _ <- assert_ assertions (size (sv p) <=? to_size_t max_dim)%Z ;;
  _ <- check_decreasing (sv p) ;;
  u_basis_pp <- gen_pp prec Nl section_edges_x (Uvec p) ;;
  v_basis_pp <- gen_pp prec Nl section_edges_y (Vvec p) ;;
  uv <- fix_signs (length u_basis_pp) 0 u_basis_pp v_basis_pp ;;
  Ok (sv p, fst uv, snd uv).

(** The lambda [gen_section_edges]. *)
Definition gen_section_edges (nodes : list Q) : list Q :=
  0 :: nodes ++ [1].

Definition generate_ir_basis_functions (knl : kernel) (max_dim : Z)
    (sv_cutoff : Q) (Nl num_nodes_gauss_legendre : Z)
  : result (list Q * list pp * list pp) :=
  let min_prec := Z.max (min_prec_of sv_cutoff) 100 in
  let prec := if (min_prec >? default_prec)%Z then min_prec else default_prec in
  let nodes := compute_approximate_nodes_even_sector prec knl 250
                 (1 # 1000000000000) in
  let section_edges_x := gen_section_edges (fst nodes) in
  let section_edges_y := gen_section_edges (snd nodes) in
  generate_ir_basis_functions_impl prec knl max_dim sv_cutoff Nl
    num_nodes_gauss_legendre section_edges_x section_edges_y.

Record ir_basis_set : Type := {
  statistics_ : statistics_type;
  sv_ : list Q;
  u_basis_ : list pp;
  v_basis_ : list pp
}.

(** The constructor [ir_basis_set(knl, max_dim, cutoff, Nl)]; the number of
    Gauss-Legendre nodes is left at its default, 12. *)
Definition new_ir_basis_set (knl : kernel) (max_dim : Z) (cutoff : Q) (Nl : Z)
  : result ir_basis_set :=
  r <- generate_ir_basis_functions knl max_dim cutoff Nl 12 ;;
  let b := {| statistics_ := get_statistics knl;
              sv_ := fst (fst r);
              u_basis_ := snd (fst r);
              v_basis_ := snd r |} in
  _ <- assert_ assertions (0 <? size (u_basis_ b))%Z ;;
  _ <- (if assertions then
          u0 <- at_ (u_basis_ b) 0 ;;
          assert_ true (0 <? num_sections u0)%Z
        else Ok tt) ;;
  Ok b.

Definition basis_f (Lambda_ : Q) (max_dim : Z) (cutoff : Q) (Nl : Z)
  : result ir_basis_set :=
  new_ir_basis_set (fermionic Lambda_) max_dim cutoff Nl.

Definition basis_b (Lambda_ : Q) (max_dim : Z) (cutoff : Q) (Nl : Z)
  : result ir_basis_set :=
  new_ir_basis_set (bosonic Lambda_) max_dim cutoff Nl.

Definition dim (b : ir_basis_set) : Z := size (u_basis_ b).

(** [l%2==0 ? 1 : -1] *)
Definition parity_sign (l : Z) : Q :=
  if (Z.rem l 2 =? 0)%Z then 1 else -1.

Definition index_in_range (b : ir_basis_set) (l : Z) : bool :=
  (0 <=? l)%Z && (l <? dim b)%Z.

Definition in_domain (x : Q) : bool := Qle_bool (-1) x && Qle_bool x 1.

Definition sl (b : ir_basis_set) (l : Z) : result Q :=
  _ <- assert_ assertions (index_in_range b l) ;;
  _ <- python_runtime_check python_checks (index_in_range b l)
         "Index l is out of range." ;;
  at_int (sv_ b) l.

Definition ulx (b : ir_basis_set) (l : Z) (x : Q) : result Q :=
  _ <- assert_ assertions (in_domain x) ;;
  _ <- assert_ assertions (index_in_range b l) ;;
  _ <- python_runtime_check python_checks (index_in_range b l)
         "Index l is out of range." ;;
  _ <- python_runtime_check python_checks (in_domain x)
         "x must be in [-1,1]." ;;
  if (l <? 0)%Z || (l >=? dim b)%Z then
    Throw "Invalid index of basis function!"
  else if Qlt_bool x (-1) || Qlt_bool 1 x then
    Throw "Invalid value of x!"
  else
    ul <- at_int (u_basis_ b) l ;;
    if Qle_bool 0 x then Ok (compute_value ul x)
    else Ok (compute_value ul (- x) * parity_sign l).

Definition vly (b : ir_basis_set) (l : Z) (y : Q) : result Q :=
  _ <- assert_ assertions (in_domain y) ;;
  _ <- assert_ assertions (index_in_range b l) ;;
  _ <- python_runtime_check python_checks (index_in_range b l)
         "Index l is out of range." ;;
  _ <- python_runtime_check python_checks (in_domain y)
         "y must be in [-1,1]." ;;
  if (l <? 0)%Z || (l >=? dim b)%Z then
    Throw "Invalid index of basis function!"
  else if Qlt_bool y (-1) || Qlt_bool 1 y then
    Throw "Invalid value of y!"
  else
    vl <- at_int (v_basis_ b) l ;;
    if Qle_bool 0 y then Ok (compute_value vl y)
    else Ok (compute_value vl (- y) * parity_sign l).

End Construction.

Arguments ir_basis_set pp : clear implicits.

(** The error kinds of the specification.  Every exception of the facade is
    a [std::runtime_error]; its message tells the kind. *)
Definition RangeError (what : string) : Prop :=
  what = "Index l is out of range."%string \/
  what = "Invalid index of basis function!"%string.

Definition DomainError (what : string) : Prop :=
  what = "x must be in [-1,1]."%string \/
  what = "Invalid value of x!"%string \/
  what = "y must be in [-1,1]."%string \/
  what = "Invalid value of y!"%string.


End Basis.

(** ** A concrete piecewise polynomial and concrete externals *)

Module Model.
Import Outcome Truncation Basis.
Local Open Scope Q_scope.

(** Modelled from the spec: piecewise_polynomial.hpp is not among the
    sources.  A piecewise polynomial is an ordered sequence of segments over
    contiguous sub-intervals; each segment stores its polynomial coefficients
    in the local coordinate shifted to its left edge. *)
Record segment : Type := {
  left_edge : Q;
  right_edge : Q;
  coeffs : list Q
}.

Definition piecewise_polynomial : Type := list segment.

Fixpoint eval_poly (c : list Q) (dx : Q) : Q :=
  match c with
  | [] => 0
  | a :: c' => a + dx * eval_poly c' dx
  end.

(** Modelled from the spec: the value at [x] is the value of the segment
    that holds [x]; the right end of the domain belongs to the last
    segment. *)
Fixpoint segments_value (p : piecewise_polynomial) (x : Q) : Q :=
  match p with
  | [] => 0
  | s :: rest =>
      match rest with
      | [] => eval_poly (coeffs s) (x - left_edge s)
      | _ :: _ =>
          if Qlt_bool x (right_edge s)
          then eval_poly (coeffs s) (x - left_edge s)
          else segments_value rest x
      end
  end.

(** Modelled from the spec: scalar multiplication multiplies every
    coefficient. *)
Definition segments_scale (c : Q) (p : piecewise_polynomial)
  : piecewise_polynomial :=
  map (fun s => {| left_edge := left_edge s;
                   right_edge := right_edge s;
                   coeffs := map (Qmult c) (coeffs s) |}) p.

#[export] Instance segments_pp : PiecewisePolynomial piecewise_polynomial := {|
  compute_value := segments_value;
  scale := segments_scale;
  num_sections := fun p => size p
|}.

(** The constant pieces over the sections of [0,1], one entry of the vector
    for each section. *)
Fixpoint right_pieces (section_edges : list Q) (vec : vector_t)
  : list segment :=
  match section_edges, vec with
  | a :: ((b :: _) as rest), c :: vec' =>
      {| left_edge := a; right_edge := b; coeffs := [c] |}
      :: right_pieces rest vec'
  | _, _ => []
  end.

Definition mirror (parity : Q) (s : segment) : segment :=
  {| left_edge := - right_edge s;
     right_edge := - left_edge s;
     coeffs := map (Qmult parity) (coeffs s) |}.

(** What the loop of [gen_pp] builds for [Nl = 1]: on each section of [0,1]
    the constant given by the entry of the vector for that section, and on
    the mirrored section [parity] times that constant, where [parity] is [1]
    for an even vector number and [-1] for an odd one.  (The factor that the
    normalised Legendre polynomial and the width of the section contribute
    is taken as 1.) *)
Definition step_function (section_edges : list Q) (v : nat) (vec : vector_t)
  : piecewise_polynomial :=
  let parity := if Nat.even v then 1 else -1 in
  rev (map (mirror parity) (right_pieces section_edges vec))
  ++ right_pieces section_edges vec.

(** Externals that hand out given inner nodes and two given decompositions,
    for [Nl = 1]: exact conversion to [double], no Python checks; [debug]
    tells whether assertions are compiled in. *)
Definition fixed_svds (debug : bool) (nodes : list Q)
    (svd_even svd_odd : BDCSVD) : Externals piecewise_polynomial := {|
  to_double := fun q => q;
  assertions := debug;
  python_checks := false;
  default_prec := 53;
  min_prec_of := fun _ => 90%Z;
  compute_approximate_nodes_even_sector := fun _ _ _ _ => (nodes, nodes);
  matrix_rep_svd := fun _ s _ _ _ _ _ =>
    match s with Even => svd_even | Odd => svd_odd end;
  gen_pp_vector := fun _ _ edges _ v vec => step_function edges v vec
|}.

(** Two decompositions of 1x1 matrices: one section. *)
Definition even_1 : BDCSVD :=
  {| singularValues := [1]; matrixU := [[1]]; matrixV := [[-1]] |}.
Definition odd_1 : BDCSVD :=
  {| singularValues := [1 # 2]; matrixU := [[-1]]; matrixV := [[1]] |}.

(** Two decompositions of 2x2 matrices: two sections, [0,1/2] and
    [1/2,1]. *)
Definition even_2 : BDCSVD :=
  {| singularValues := [1; 1 # 2];
     matrixU := [[3 # 5; 4 # 5]; [- 4 # 5; 3 # 5]];
     matrixV := [[1; 0]; [0; 1]] |}.
Definition odd_2 : BDCSVD :=
  {| singularValues := [9 # 10; 2 # 5];
     matrixU := [[0; - 1]; [1; 0]];
     matrixV := [[0; 1]; [1; 0]] |}.

(** A 1x1 odd sector above the even one, as lost precision can leave
    it. *)
Definition odd_1_unstable : BDCSVD :=
  {| singularValues := [2]; matrixU := [[1]]; matrixV := [[1]] |}.

(** A 2x2 odd sector whose second value is above the second even one. *)
Definition odd_2_unstable : BDCSVD :=
  {| singularValues := [9 # 10; 3 # 5];
     matrixU := [[0; - 1]; [1; 0]];
     matrixV := [[0; 1]; [1; 0]] |}.

(** The decomposition of the 1x1 zero matrix. *)
Definition zero_1 : BDCSVD :=
  {| singularValues := [0]; matrixU := [[1]]; matrixV := [[1]] |}.

(** The section edges of the 2x2 runs. *)
Definition edges_2 : list Q := [0; 1 # 2; 1].

(** The builds and numerics of the runs below. *)
Definition release_1 : Externals piecewise_polynomial :=
  fixed_svds false [] even_1 odd_1.
Definition release_2 : Externals piecewise_polynomial :=
  fixed_svds false [1 # 2] even_2 odd_2.
Definition debug_2 : Externals piecewise_polynomial :=
  fixed_svds true [1 # 2] even_2 odd_2.
Definition unstable_1 : Externals piecewise_polynomial :=
  fixed_svds false [] even_1 odd_1_unstable.
Definition unstable_2 : Externals piecewise_polynomial :=
  fixed_svds false [1 # 2] even_2 odd_2_unstable.

(** Construction from the 2x2 decompositions: up to three functions, cutoff
    1/10. *)
Definition run_2 :
  result (list Q * list piecewise_polynomial * list piecewise_polynomial) :=
  generate_ir_basis_functions_impl (E := release_2)
    100 (fermionic 1) 3 (1 # 10) 1 12 edges_2 edges_2.

End Model.

(** ** The symmetrised kernels (kernel.hpp, lines 246 and 250) *)

Module Symmetrised.
Local Open Scope R_scope.

(** The lambda [kernel_even]: [kernel(x, y) + kernel(x, -y)]. *)
Definition kernel_even (kernel : R -> R -> R) (x y : R) : R :=
  kernel x y + kernel x (- y).

(** The lambda [kernel_odd]: [kernel(x, y) - kernel(x, -y)]. *)
Definition kernel_odd (kernel : R -> R -> R) (x y : R) : R :=
  kernel x y - kernel x (- y).

End Symmetrised.

(** ** Composite Gauss-Legendre nodes (kernel.hpp, lines 133-153) *)

Module Quadrature.
Import Outcome.

(** The arithmetic the template parameter [mp_type] brings: [+], [-], [*],
    [/] and the conversion [mp_type(n)] of an [int]. *)
Class Arithmetic (mp_type : Type) : Type := {
  add : mp_type -> mp_type -> mp_type;
  sub : mp_type -> mp_type -> mp_type;
  mul : mp_type -> mp_type -> mp_type;
  div : mp_type -> mp_type -> mp_type;
  of_int : Z -> mp_type
}.

(** A [size_t] stored in an [int]: the low 32 bits, in two's complement. *)
Definition to_int (z : Z) : Z := ((z + 2 ^ 31) mod 2 ^ 32 - 2 ^ 31)%Z.

(** What [std::vector<T> v(n)] ends in: the vector, or [std::length_error]
    when [n] exceeds [max_size()].  Exhausted memory is left out. *)
Inductive allocation (A : Type) : Type :=
| Allocated (a : A)
| LengthError.

Arguments Allocated {A} a.
Arguments LengthError {A}.

(** [v[i] = x] for an [int] index, converted to [size_t]. *)
Definition store {A : Type} (v : list A) (i : Z) (x : A) : result (list A) :=
  if (i <? 0)%Z || (size v <=? i)%Z then OutOfBounds
  else Ok (assign v (Z.to_nat i) x).

(** The pairs of neighbouring edges: the sections. *)
Fixpoint sections {A : Type} (edges : list A) : list (A * A) :=
  match edges with
  | [] => []
  | a :: rest =>
      match rest with
      | [] => []
      | b :: _ => (a, b) :: sections rest
      end
  end.

Section Composite.

Context {mp_type : Type} {AR : Arithmetic mp_type}.

(** [max_size()] of the vector of nodes. *)
Variable max_size : Z.

(** A node and its weight. *)
Definition node : Type := (mp_type * mp_type)%type.

(** [std::vector<std::pair<mp_type, mp_type> > all_nodes(n)]: [n]
    value-initialised pairs. *)
Definition new_vector (n : Z) : allocation (list node) :=
  if (max_size <? n)%Z then LengthError
  else Allocated (repeat (of_int 0, of_int 0) (Z.to_nat n)).

(** Lines 147-148: the node and the weight moved from [-1,1] to the section
    from [a] to [b]. *)
Definition place (a b : mp_type) (nd : node) : node :=
  (add a (mul (div (sub b a) (of_int 2)) (add (fst nd) (of_int 1))),
   mul (div (sub b a) (of_int 2)) (snd nd)).

(** [for (int n = 0; n < num_local_nodes; ++n)], with [k] the iterations
    left. *)
Fixpoint local_loop (k n s : nat) (num_local_nodes : Z) (a b : mp_type)
    (nodes all_nodes : list node) : result (list node) :=
  match k with
  | O => Ok all_nodes
  | S k' =>
      nd <- at_ nodes n ;;
      all_nodes' <- store all_nodes
                      (Z.of_nat s * num_local_nodes + Z.of_nat n)
                      (place a b nd) ;;
      local_loop k' (S n) s num_local_nodes a b nodes all_nodes'
  end.

(** [for (int s = 0; s < num_sec; ++s)], with [k] the iterations left. *)
Fixpoint section_loop (k s : nat) (num_local_nodes : Z)
    (section_edges : list mp_type) (nodes all_nodes : list node)
  : result (list node) :=
  match k with
  | O => Ok all_nodes
  | S k' =>
      a <- at_ section_edges s ;;
      b <- at_ section_edges (S s) ;;
      all_nodes' <- local_loop (Z.to_nat num_local_nodes) 0 s num_local_nodes
                      a b nodes all_nodes ;;
      section_loop k' (S s) num_local_nodes section_edges nodes all_nodes'
  end.

(** The two sizes are taken as [int]s, their product is the size of the
    result.  The product is computed in [Z]: where it leaves the range of
    [int] the C++ is undefined. *)
Definition composite_gauss_legendre_nodes (section_edges : list mp_type)
    (nodes : list node) : allocation (result (list node)) :=
  let num_sec := to_int (to_size_t (size section_edges - 1)) in
  let num_local_nodes := to_int (size nodes) in
  match new_vector (to_size_t (num_sec * num_local_nodes)) with
  | LengthError => LengthError
  | Allocated all_nodes =>
      Allocated (section_loop (Z.to_nat num_sec) 0 num_local_nodes
                   section_edges nodes all_nodes)
  end.

(** The composite rule as a map: the local rule placed on every section,
    section after section. *)
Definition placed_on_sections (section_edges : list mp_type)
    (nodes : list node) : list node :=
  flat_map (fun ab => map (place (fst ab) (snd ab)) nodes)
           (sections section_edges).

End Composite.

(** Exact rational arithmetic as [mp_type]. *)
#[export] Instance exact : Arithmetic Q := {
  add := Qplus;
  sub := Qminus;
  mul := Qmult;
  div := Qdiv;
  of_int := inject_Z
}.

(** The sum of the weights of a rule. *)
Definition total_weight (rule : list (Q * Q)) : Q :=
  fold_right (fun nd acc => snd nd + acc)%Q 0%Q rule.

(** The edges do not decrease. *)
Definition ascending (edges : list Q) : Prop :=
  Forall (fun ab => fst ab <= snd ab)%Q (sections edges).

End Quadrature.

(** ** Access to the stored functions (basis.hpp, lines 131-141) *)

Module Accessors.
Import Outcome Truncation Basis.

Section Functions.

Context {pp : Type} {PP : PiecewisePolynomial pp} {E : Externals pp}.

Definition ul (b : ir_basis_set pp) (l : Z) : result pp :=
  _ <- assert_ assertions (index_in_range b l) ;;
  _ <- python_runtime_check python_checks (index_in_range b l)
         "Index l is out of range." ;;
  at_int (u_basis_ b) l.

Definition vl (b : ir_basis_set pp) (l : Z) : result pp :=
  _ <- assert_ assertions (index_in_range b l) ;;
  _ <- python_runtime_check python_checks (index_in_range b l)
         "Index l is out of range." ;;
  at_int (v_basis_ b) l.

End Functions.

End Accessors.

(** ** A stored basis for the runs of the facade *)

Module Stored.
Import Basis Model.
Local Open Scope Q_scope.

(** A basis of one function over one section. *)
Definition one_function : ir_basis_set piecewise_polynomial :=
  {| statistics_ := FERMIONIC;
     sv_ := [1];
     u_basis_ := [step_function [0; 1] 0 [1]];
     v_basis_ := [step_function [0; 1] 0 [1]] |}.

End Stored.

(** ** The construction as a function of the picked triples

    A reference to compare the loops of [generate_ir_basis_functions_impl]
    with: what they compute, without indices or mutation. *)

Module Functional.
Import Outcome Truncation Basis.
Local Open Scope Q_scope.

Section Reference.

Context {pp : Type} {PP : PiecewisePolynomial pp} {E : Externals pp}.






End Reference.

End Functional.

(** * Facts *)

Module TruncationFacts.
Import Outcome Truncation.
Local Open Scope Q_scope.

Lemma Qlt_bool_iff (a b : Q) : Qlt_bool a b = true <-> a < b.
Proof.
  unfold Qlt_bool. rewrite negb_true_iff. split.
  - intros H. apply Qnot_le_lt. intro Hle.
    apply Qle_bool_iff in Hle. congruence.
  - intros H. destruct (Qle_bool b a) eqn:E; [| reflexivity].
    apply Qle_bool_iff in E. apply Qle_not_lt in E. contradiction.
Qed.

Lemma Qlt_bool_false (a b : Q) : Qlt_bool a b = false <-> b <= a.
Proof.
  unfold Qlt_bool. rewrite negb_false_iff. apply Qle_bool_iff.
Qed.

Lemma size_push_back {A : Type} (v : list A) (x : A) :
  size (push_back v x) = (size v + 1)%Z.
Proof. unfold size, push_back. rewrite length_app. simpl. lia. Qed.

Lemma size_nonneg {A : Type} (v : list A) : (0 <= size v)%Z.
Proof. unfold size. lia. Qed.

Lemma at_some {A : Type} (v : list A) (i : nat) (x : A) :
  nth_error v i = Some x -> at_ v i = Ok x.
Proof. unfold at_. intros ->. reflexivity. Qed.

Lemma skipn_nth_error {A : Type} (l : list A) (i : nat) (a : A) :
  nth_error l i = Some a -> skipn i l = a :: skipn (S i) l.
Proof.
  revert i. induction l as [| h t IH]; intros [| i] H; simpl in *;
    try discriminate.
  - congruence.
  - apply IH in H. exact H.
Qed.

Lemma length_zip3 (s : list Q) (u v : list vector_t) :
  length u = length s -> length v = length s ->
  length (zip3 s u v) = length s.
Proof.
  revert u v. induction s as [| a s IH]; intros [| b u] [| c v] Hu Hv;
    simpl in *; try discriminate; auto.
Qed.

Lemma nth_error_zip3 (s : list Q) (u v : list vector_t) (i : nat)
    (a : Q) (b c : vector_t) :
  nth_error s i = Some a -> nth_error u i = Some b -> nth_error v i = Some c ->
  nth_error (zip3 s u v) i = Some (a, b, c).
Proof.
  revert u v i. induction s as [| a0 s IH]; intros [| b0 u] [| c0 v] [| i];
    simpl; try discriminate.
  - intros H1 H2 H3. inversion H1. inversion H2. inversion H3. reflexivity.
  - apply IH.
Qed.

Lemma map_sigma_zip3 (s : list Q) (u v : list vector_t) :
  length u = length s -> length v = length s ->
  map sigma (zip3 s u v) = s.
Proof.
  revert u v. induction s as [| a s IH]; intros [| b u] [| c v] Hu Hv;
    simpl in *; try discriminate; auto.
  f_equal. apply IH; congruence.
Qed.

Lemma nth_error_in_range {A : Type} (l : list A) (i : nat) :
  (i < length l)%nat -> exists a, nth_error l i = Some a.
Proof.
  intros H. destruct (nth_error l i) eqn:E; eauto.
  apply nth_error_None in E. lia.
Qed.

(** The column and the value at an index of a square decomposition. *)
Lemma triples_at (d : BDCSVD) (i : nat) :
  square d -> (i < length (singularValues d))%nat ->
  exists a b c,
    nth_error (singularValues d) i = Some a /\
    nth_error (matrixU d) i = Some b /\
    nth_error (matrixV d) i = Some c /\
    skipn i (triples d) = (a, b, c) :: skipn (S i) (triples d).
Proof.
  intros [HU HV] Hi.
  destruct (nth_error_in_range (singularValues d) i Hi) as [a Ha].
  destruct (nth_error_in_range (matrixU d) i) as [b Hb]; [lia |].
  destruct (nth_error_in_range (matrixV d) i) as [c Hc]; [lia |].
  exists a, b, c. repeat split; auto.
  apply skipn_nth_error. unfold triples. apply nth_error_zip3; auto.
Qed.

Lemma length_triples (d : BDCSVD) :
  square d -> length (triples d) = length (singularValues d).
Proof. intros [HU HV]. apply length_zip3; auto. Qed.

Section PickFacts.

Variable to_double : Q -> Q.

(** The loop of the source emits what the lock-step recursion emits, the
    count being compared with [max_dim] converted to [size_t]. *)
Lemma pick_loop_lockstep (svd_even svd_odd : BDCSVD) (max_dim : Z)
    (cutoff s0 : Q) :
  square svd_even -> square svd_odd ->
  length (singularValues svd_odd) = length (singularValues svd_even) ->
  forall (n i : nat) (p : picked),
    (n + i = length (singularValues svd_even))%nat ->
    exists p',
      pick_loop to_double n i svd_even svd_odd max_dim cutoff s0 p = Ok p' /\
      let L := lockstep (size (sv p)) (to_size_t max_dim) cutoff s0
                 (skipn i (triples svd_even)) (skipn i (triples svd_odd)) in
      sv p' = sv p ++ map (fun t => to_double (sigma t)) L /\
      Uvec p' = Uvec p ++ map (fun t => snd (fst t)) L /\
      Vvec p' = Vvec p ++ map (fun t => snd t) L.
Proof.
  intros He Ho Hlen. induction n as [| n IH]; intros i p Hn.
  - exists p. split; [reflexivity |].
    rewrite skipn_all2
      by (rewrite length_triples by assumption; simpl in Hn; lia).
    simpl. rewrite !app_nil_r. auto.
  - destruct (triples_at svd_even i He) as (a & b & c & Ha & Hb & Hc & Hsk);
      [lia |].
    destruct (triples_at svd_odd i Ho)
      as (a' & b' & c' & Ha' & Hb' & Hc' & Hsk'); [lia |].
    rewrite Hsk, Hsk'. cbn [pick_loop lockstep]. unfold stops. cbn [sigma fst].
    destruct (size (sv p) =? to_size_t max_dim)%Z eqn:E1.
    { exists p. cbn. rewrite !app_nil_r. auto. }
    rewrite (at_some _ _ _ Ha). cbn [bind orb].
    destruct (mp_lt (mp_div a s0) cutoff) eqn:E2.
    { exists p. cbn. rewrite !app_nil_r. auto. }
    rewrite (at_some _ _ _ Hb), (at_some _ _ _ Hc). cbn [bind].
    cbn [push sv]. rewrite size_push_back.
    destruct (size (sv p) + 1 =? to_size_t max_dim)%Z eqn:E3.
    { eexists. split; [reflexivity |]. cbn. auto. }
    rewrite (at_some _ _ _ Ha'). cbn [bind orb].
    destruct (mp_lt (mp_div a' s0) cutoff) eqn:E4.
    { eexists. split; [reflexivity |]. cbn. auto. }
    rewrite (at_some _ _ _ Hb'), (at_some _ _ _ Hc'). cbn [bind].
    edestruct (IH (S i)) as (p' & Hrun & Hsv & HU & HV); [lia |].
    exists p'. split; [exact Hrun |].
    cbn [push sv Uvec Vvec] in Hsv, HU, HV.
    rewrite !size_push_back in Hsv, HU, HV.
    replace (size (sv p) + 1 + 1)%Z with (size (sv p) + 2)%Z in * by lia.
    cbn zeta. rewrite Hsv, HU, HV. unfold push_back.
    cbn [map sigma fst snd]. rewrite <- !app_assoc. cbn [app]. auto.
Qed.

End PickFacts.

Lemma to_size_t_small (z : Z) :
  (0 <= z < size_t_modulus)%Z -> to_size_t z = z.
Proof. intros H. unfold to_size_t. apply Z.mod_small. exact H. Qed.

(** For an [int] bound and a count that is itself an [int], comparing with
    the converted bound is comparing with the bound. *)
Lemma count_eqb_to_size_t (count max_dim : Z) :
  is_int max_dim -> (0 <= count < 2 ^ 31)%Z ->
  (count =? to_size_t max_dim)%Z = (count =? max_dim)%Z.
Proof.
  unfold is_int. intros Hm Hc.
  destruct (Z_lt_le_dec max_dim 0) as [Hneg | Hpos].
  - assert (Hw : to_size_t max_dim = (max_dim + 2 ^ 64)%Z).
    { unfold to_size_t, size_t_modulus.
      symmetry. apply Z.mod_unique with (q := (-1)%Z); lia. }
    rewrite Hw.
    destruct (Z.eqb_spec count (max_dim + 2 ^ 64));
      destruct (Z.eqb_spec count max_dim); try reflexivity; lia.
  - rewrite to_size_t_small; [reflexivity |].
    unfold size_t_modulus. lia.
Qed.

Lemma lockstep_cap (m m' : Z) (cutoff s0 : Q) (even odd : list triple) :
  forall count : Z,
    (forall c, (count <= c < count + 2 * size even)%Z ->
               (c =? m)%Z = (c =? m')%Z) ->
    lockstep count m cutoff s0 even odd
    = lockstep count m' cutoff s0 even odd.
Proof.
  revert odd. induction even as [| e even IH]; intros odd count H.
  - reflexivity.
  - destruct odd as [| o odd]; [reflexivity |].
    cbn [lockstep]. unfold stops.
    assert (Hs : size (e :: even) = (size even + 1)%Z)
      by (unfold size; simpl length; lia).
    rewrite Hs in H. pose proof (size_nonneg even) as Hnn.
    rewrite (H count) by lia. rewrite (H (count + 1)%Z) by lia.
    rewrite (IH odd (count + 2)%Z); [reflexivity |].
    intros c Hc. apply H. lia.
Qed.

Ltac stop_here :=
  cbn; unfold size; cbn [length];
  repeat split;
  first [ reflexivity | lia | left; lia | right; assumption
        | repeat constructor; assumption | auto ].

(** What the lock-step recursion emits is a prefix of the interleaved
    candidates; everything emitted passed the cutoff test, the count never
    passes the cap, and where the emission stops short of the cap the next
    candidate failed the cutoff test. *)
Lemma lockstep_prefix (m : Z) (cutoff s0 : Q) (even odd : list triple) :
  forall count : Z,
    exists rest,
      interleave even odd = lockstep count m cutoff s0 even odd ++ rest /\
      Forall (fun t => kept s0 cutoff (sigma t))
             (lockstep count m cutoff s0 even odd) /\
      ((count <= m)%Z ->
       (count + size (lockstep count m cutoff s0 even odd) <= m)%Z) /\
      match rest with
      | [] => True
      | t :: _ =>
          (count + size (lockstep count m cutoff s0 even odd) = m)%Z \/
          mp_lt (mp_div (sigma t) s0) cutoff = true
      end.
Proof.
  revert odd. induction even as [| e even IH]; intros odd count.
  - exists []. stop_here.
  - destruct odd as [| o odd].
    { exists []. stop_here. }
    cbn [lockstep interleave]. unfold stops.
    destruct (Z.eqb_spec count m) as [E1 | E1]; cbn [orb].
    { exists (e :: o :: interleave even odd). stop_here. }
    destruct (mp_lt (mp_div (sigma e) s0) cutoff) eqn:E2.
    { exists (e :: o :: interleave even odd). stop_here. }
    destruct (Z.eqb_spec (count + 1) m) as [E3 | E3]; cbn [orb].
    { exists (o :: interleave even odd). stop_here. }
    destruct (mp_lt (mp_div (sigma o) s0) cutoff) eqn:E4.
    { exists (o :: interleave even odd). stop_here. }
    destruct (IH odd (count + 2)%Z) as (rest & Hi & Hk & Hc & Hr).
    exists rest.
    set (L := lockstep (count + 2) m cutoff s0 even odd) in *.
    assert (Hsz : size (e :: o :: L) = (size L + 2)%Z)
      by (unfold size; simpl length; lia).
    split; [cbn; rewrite Hi; reflexivity |].
    split; [repeat constructor; auto |].
    split; [intros Hle; rewrite Hsz; lia |].
    destruct rest as [| t rest]; [exact I |].
    rewrite Hsz. destruct Hr as [Hr | Hr]; [left; lia | right; exact Hr].
Qed.

Lemma interleave_nth_even {A : Type} (even odd : list A) (i : nat) :
  length odd = length even ->
  nth_error (interleave even odd) (2 * i) = nth_error even i.
Proof.
  revert odd i. induction even as [| e even IH]; intros [| o odd] i H;
    simpl in H; try discriminate.
  - destruct i; reflexivity.
  - destruct i as [| i]; [reflexivity |].
    replace (2 * S i)%nat with (S (S (2 * i))) by lia.
    cbn [interleave nth_error]. apply IH. congruence.
Qed.

Lemma interleave_nth_odd {A : Type} (even odd : list A) (i : nat) :
  length odd = length even ->
  nth_error (interleave even odd) (2 * i + 1) = nth_error odd i.
Proof.
  revert odd i. induction even as [| e even IH]; intros [| o odd] i H;
    simpl in H; try discriminate.
  - destruct i; reflexivity.
  - destruct i as [| i]; [reflexivity |].
    replace (2 * S i + 1)%nat with (S (S (2 * i + 1))) by lia.
    cbn [interleave nth_error]. apply IH. congruence.
Qed.

Lemma map_interleave {A B : Type} (f : A -> B) (even odd : list A) :
  map f (interleave even odd) = interleave (map f even) (map f odd).
Proof.
  revert odd. induction even as [| e even IH]; intros [| o odd];
    try reflexivity.
  cbn. rewrite IH. reflexivity.
Qed.

Lemma map_sigma_triples (d : BDCSVD) :
  square d -> map sigma (triples d) = singularValues d.
Proof. intros [HU HV]. apply map_sigma_zip3; auto. Qed.

Lemma zip3_maps {A : Type} (f : A -> Q) (g h : A -> vector_t) (L : list A) :
  zip3 (map f L) (map g L) (map h L) = map (fun t => (f t, g t, h t)) L.
Proof. induction L as [| t L IH]; cbn; [| rewrite IH]; reflexivity. Qed.

Section PickResults.

Variable to_double : Q -> Q.

(** The whole of lines 255-271 on well-formed decompositions. *)
Lemma pick_spec (svd_even svd_odd : BDCSVD) (max_dim : Z) (cutoff : Q) :
  square svd_even -> square svd_odd ->
  length (singularValues svd_odd) = length (singularValues svd_even) ->
  singularValues svd_even <> [] ->
  exists p,
    pick to_double svd_even svd_odd max_dim cutoff = Ok p /\
    let L := lockstep 0 (to_size_t max_dim) cutoff (leading (triples svd_even))
               (triples svd_even) (triples svd_odd) in
    sv p = map (fun t => to_double (sigma t)) L /\
    Uvec p = map (fun t => snd (fst t)) L /\
    Vvec p = map (fun t => snd t) L.
Proof.
  intros He Ho Hlen Hne.
  destruct (triples_at svd_even 0 He) as (a & b & c & Ha & _ & _ & Hsk).
  { destruct (singularValues svd_even); [congruence | simpl; lia]. }
  cbn [skipn] in Hsk.
  unfold pick. rewrite (at_some _ _ _ Ha). cbn [bind].
  assert (Hlead : leading (triples svd_even) = a) by (rewrite Hsk; reflexivity).
  rewrite Hlead.
  destruct (pick_loop_lockstep to_double svd_even svd_odd max_dim cutoff a
              He Ho Hlen (length (singularValues svd_even)) 0 no_pick)
    as (p & Hrun & Hsv & HU & HV); [lia |].
  exists p. split; [exact Hrun |].
  cbn [skipn no_pick sv Uvec Vvec app] in Hsv, HU, HV.
  change (size []) with 0%Z in Hsv, HU, HV. cbn zeta. auto.
Qed.

End PickResults.

(** *** The check loop *)

Lemma check_bound_nonempty (sv : list Q) :
  sv <> [] -> (size sv <= size_t_modulus)%Z ->
  check_bound sv = (size sv - 1)%Z.
Proof.
  intros Hne Hsz. unfold check_bound. apply to_size_t_small.
  destruct sv; [congruence |]. unfold size in *. simpl length in *. lia.
Qed.

Lemma first_violation_cons2 (a b : Q) (rest : list Q) :
  first_violation (a :: b :: rest)
  = if Qlt_bool a b then Some O else option_map S (first_violation (b :: rest)).
Proof. reflexivity. Qed.

(** From index [k] on, the loop throws exactly when a violation is left. *)
Lemma check_loop_spec (sv : list Q) :
  (size sv <= size_t_modulus)%Z ->
  forall (fuel k : nat),
    (k < length sv)%nat -> (length sv - k <= fuel)%nat ->
    check_loop fuel sv (Z.of_nat k)
    = match first_violation (skipn k sv) with
      | None => Ok tt
      | Some _ => Throw what_not_decreasing
      end.
Proof.
  intros Hsz. induction fuel as [| fuel IH]; intros k Hk Hf; [lia |].
  assert (Hne : sv <> []) by (destruct sv; [simpl in Hk; lia | congruence]).
  cbn [check_loop]. rewrite (check_bound_nonempty sv Hne Hsz).
  rewrite to_size_t_small by (unfold size in *; lia).
  destruct (nth_error_in_range sv k Hk) as [a Ha].
  rewrite (skipn_nth_error sv k a Ha).
  destruct (Z.ltb_spec (Z.of_nat k) (size sv - 1)) as [Hlt | Hge].
  - assert (Hk' : (S k < length sv)%nat) by (unfold size in Hlt; lia).
    destruct (nth_error_in_range sv (S k) Hk') as [b Hb].
    rewrite (skipn_nth_error sv (S k) b Hb).
    rewrite Nat2Z.id.
    replace (Z.to_nat (Z.of_nat k + 1)) with (S k) by lia.
    rewrite (at_some _ _ _ Ha), (at_some _ _ _ Hb). cbn [bind].
    rewrite first_violation_cons2.
    destruct (Qlt_bool a b); [reflexivity |].
    replace (Z.of_nat k + 1)%Z with (Z.of_nat (S k)) by lia.
    rewrite IH by lia.
    rewrite (skipn_nth_error sv (S k) b Hb).
    destruct (first_violation (b :: skipn (S (S k)) sv)); reflexivity.
  - assert (Hlast : (S k = length sv)%nat) by (unfold size in Hge; lia).
    rewrite skipn_all2 by lia. reflexivity.
Qed.

(** Lines 274-279 on a non-empty vector: the check reads inside the vector,
    ends, and throws exactly when the values increase somewhere. *)
Lemma check_decreasing_nonempty (sv : list Q) :
  sv <> [] -> (size sv <= size_t_modulus)%Z ->
  check_decreasing sv
  = match first_violation sv with
    | None => Ok tt
    | Some _ => Throw what_not_decreasing
    end.
Proof.
  intros Hne Hsz. unfold check_decreasing.
  change 0%Z with (Z.of_nat 0).
  rewrite (check_loop_spec sv Hsz); [reflexivity | |lia].
  destruct sv; [congruence | simpl; lia].
Qed.

(** On the empty vector the bound wraps and the first turn reads [sv[0]]. *)
Lemma check_decreasing_empty : check_decreasing [] = OutOfBounds.
Proof. reflexivity. Qed.

Lemma non_increasing_nth (sv : list Q) :
  non_increasing sv ->
  forall (l : nat) (a b : Q),
    nth_error sv l = Some a -> nth_error sv (S l) = Some b -> b <= a.
Proof.
  unfold non_increasing.
  induction sv as [| x sv IH]; intros H l a b Ha Hb.
  - destruct l; discriminate.
  - destruct sv as [| y sv].
    { destruct l; simpl in Hb; [discriminate | destruct l; discriminate]. }
    rewrite first_violation_cons2 in H.
    destruct (Qlt_bool x y) eqn:E; [discriminate |].
    destruct (first_violation (y :: sv)) eqn:F; [discriminate |].
    destruct l as [| l].
    + simpl in Ha, Hb. inversion Ha; inversion Hb; subst.
      apply Qlt_bool_false. exact E.
    + apply (IH eq_refl l a b); assumption.
Qed.

(** Where two neighbours increase, the check finds a violation. *)
Lemma violation_found (sv : list Q) (l : nat) (a b : Q) :
  nth_error sv l = Some a -> nth_error sv (S l) = Some b -> a < b ->
  exists l', first_violation sv = Some l'.
Proof.
  intros Ha Hb Hab. destruct (first_violation sv) as [l' |] eqn:Hv; [eauto |].
  exfalso. apply (Qlt_not_le _ _ Hab).
  apply (non_increasing_nth sv Hv l a b Ha Hb).
Qed.

Lemma length_interleave {A : Type} (even odd : list A) :
  (length (interleave even odd) <= 2 * length even)%nat.
Proof.
  revert odd. induction even as [| e even IH]; intros [| o odd]; simpl;
    try lia.
  specialize (IH odd). lia.
Qed.

Lemma in_interleave {A : Type} (even odd : list A) (x : A) :
  In x (interleave even odd) -> In x (even ++ odd).
Proof.
  revert odd. induction even as [| e even IH]; intros [| o odd] H;
    simpl in H; try contradiction.
  apply in_or_app. destruct H as [H | [H | H]].
  - left. left. exact H.
  - right. left. exact H.
  - apply IH in H. apply in_app_or in H. destruct H; [left | right]; right;
      assumption.
Qed.

Lemma mp_div_pos (s s0 : Q) : 0 < s0 -> mp_div s s0 = Finite (s / s0).
Proof.
  intros H. unfold mp_div.
  destruct (Qeq_bool s0 0) eqn:E; [| reflexivity].
  apply Qeq_bool_iff in E. rewrite E in H. apply Qlt_irrefl in H. contradiction.
Qed.

(** With a positive reference the two outcomes of the cutoff test are the
    two inequalities on the quotient. *)
Lemma kept_pos (s0 cutoff s : Q) :
  0 < s0 -> kept s0 cutoff s -> cutoff <= s / s0.
Proof.
  unfold kept. intros H. rewrite (mp_div_pos s s0 H). cbn [mp_lt].
  apply Qlt_bool_false.
Qed.

Lemma dropped_pos (s0 cutoff s : Q) :
  0 < s0 -> mp_lt (mp_div s s0) cutoff = true -> s / s0 < cutoff.
Proof.
  intros H. rewrite (mp_div_pos s s0 H). cbn [mp_lt]. apply Qlt_bool_iff.
Qed.

Lemma non_increasing_le (sv : list Q) :
  non_increasing sv ->
  forall (d l : nat) (a b : Q),
    nth_error sv l = Some a -> nth_error sv (d + l) = Some b -> b <= a.
Proof.
  intros H. induction d as [| d IH]; intros l a b Ha Hb.
  - simpl in Hb. assert (a = b) by congruence. subst. apply Qle_refl.
  - destruct (nth_error sv (d + l)) as [c |] eqn:Hc.
    + apply Qle_trans with c.
      * apply (non_increasing_nth sv H (d + l) c b Hc Hb).
      * apply (IH l a c Ha Hc).
    + apply nth_error_None in Hc.
      assert (nth_error sv (S d + l) = None)
        by (apply nth_error_None; simpl; lia).
      congruence.
Qed.

Lemma nth_error_map_prefix {A B : Type} (f : A -> B) (L rest : list A)
    (k : nat) :
  (k < length (map f L))%nat ->
  nth_error (map f L) k = option_map f (nth_error (L ++ rest) k).
Proof.
  intros Hk. rewrite length_map in Hk.
  rewrite nth_error_map, nth_error_app1 by exact Hk. reflexivity.
Qed.

Lemma lockstep_counts_as_int (max_dim : Z) (cutoff s0 : Q)
    (even odd : list triple) :
  is_int max_dim -> (2 * size even < 2 ^ 31)%Z ->
  lockstep 0 (to_size_t max_dim) cutoff s0 even odd
  = lockstep 0 max_dim cutoff s0 even odd.
Proof.
  intros Hint Hsz. apply lockstep_cap. intros c Hc.
  apply count_eqb_to_size_t; [exact Hint | lia].
Qed.

Lemma leading_triples (d : BDCSVD) (s0 : Q) (tl : list Q) :
  square d -> singularValues d = s0 :: tl -> leading (triples d) = s0.
Proof.
  intros Hsq Hd. pose proof (map_sigma_triples d Hsq) as Hm.
  rewrite Hd in Hm. destruct (triples d) as [| t ts]; [discriminate |].
  cbn in Hm. inversion Hm. reflexivity.
Qed.

(** What the loop keeps, in terms of singular values alone: a prefix of the
    interleaved candidates, every member of which passed the cutoff test; it
    has at most [max_dim] members, and if it stops before [max_dim] the next
    candidate failed the test. *)
Lemma pick_values (to_double : Q -> Q) (svd_even svd_odd : BDCSVD)
    (max_dim : Z) (cutoff s0 : Q) (tl : list Q) :
  well_formed svd_even svd_odd ->
  singularValues svd_even = s0 :: tl ->
  is_int max_dim ->
  exists p sigmas rest,
    pick to_double svd_even svd_odd max_dim cutoff = Ok p /\
    interleave (singularValues svd_even) (singularValues svd_odd)
    = sigmas ++ rest /\
    sv p = map to_double sigmas /\
    Forall (kept s0 cutoff) sigmas /\
    ((0 <= max_dim)%Z -> (size sigmas <= max_dim)%Z) /\
    match rest with
    | [] => True
    | x :: _ =>
        size sigmas = max_dim \/ mp_lt (mp_div x s0) cutoff = true
    end.
Proof.
  intros (He & Ho & Hlen & Hsz) Hd Hint.
  assert (Hne : singularValues svd_even <> []) by (rewrite Hd; discriminate).
  destruct (pick_spec to_double svd_even svd_odd max_dim cutoff He Ho Hlen Hne)
    as (p & Hrun & Hsv & _ & _).
  cbn zeta in Hsv.
  assert (Hszt : (2 * size (triples svd_even) < 2 ^ 31)%Z).
  { unfold size in *. rewrite length_triples by exact He. exact Hsz. }
  rewrite (lockstep_counts_as_int max_dim cutoff _ _ _ Hint Hszt) in Hsv.
  rewrite (leading_triples svd_even s0 tl He Hd) in Hsv.
  destruct (lockstep_prefix max_dim cutoff s0
              (triples svd_even) (triples svd_odd) 0)
    as (rest & Hpre & Hkept & Hcap & Hnext).
  set (L := lockstep 0 max_dim cutoff s0 (triples svd_even) (triples svd_odd))
    in *.
  exists p, (map sigma L), (map sigma rest).
  split; [exact Hrun |].
  split.
  { rewrite <- map_app, <- Hpre, map_interleave.
    rewrite !map_sigma_triples by assumption. reflexivity. }
  split; [rewrite Hsv, map_map; reflexivity |].
  split; [apply Forall_map; exact Hkept |].
  assert (Hsize : size (map sigma L) = size L)
    by (unfold size; rewrite length_map; reflexivity).
  split; [intros H0; rewrite Hsize; specialize (Hcap H0); lia |].
  destruct rest as [| t rest]; [exact I |].
  cbn [map]. rewrite Hsize.
  destruct Hnext as [Hn | Hn]; [left; lia | right; exact Hn].
Qed.

(** C2. The truncation and merge step runs over the two decompositions in
    lock-step: for i = 0, 1, 2, ... it emits the i-th even triple, at merged
    index 2i, unless the count has reached [max_dim] or its value relative
    to the leading even value is below the cutoff, and then the i-th odd
    triple, at merged index 2i+1, under the same test with the same
    reference. *)
Theorem truncation_merge_is_lockstep (to_double : Q -> Q)
    (svd_even svd_odd : BDCSVD) (max_dim : Z) (cutoff : Q) :
  well_formed svd_even svd_odd ->
  singularValues svd_even <> [] ->
  is_int max_dim ->
  exists p,
    pick to_double svd_even svd_odd max_dim cutoff = Ok p /\
    picked_triples p
    = map (rounded to_double)
        (merge_as_worded max_dim cutoff (triples svd_even) (triples svd_odd)) /\
    forall i : nat,
      ((2 * i < length (picked_triples p))%nat ->
       nth_error (picked_triples p) (2 * i)
       = option_map (rounded to_double) (nth_error (triples svd_even) i)) /\
      ((2 * i + 1 < length (picked_triples p))%nat ->
       nth_error (picked_triples p) (2 * i + 1)
       = option_map (rounded to_double) (nth_error (triples svd_odd) i)).
Proof.
  intros (He & Ho & Hlen & Hsz) Hne Hint.
  destruct (pick_spec to_double svd_even svd_odd max_dim cutoff He Ho Hlen Hne)
    as (p & Hrun & Hsv & HU & HV).
  cbn zeta in Hsv, HU, HV.
  assert (Hszt : (2 * size (triples svd_even) < 2 ^ 31)%Z).
  { unfold size in *. rewrite length_triples by exact He. exact Hsz. }
  rewrite (lockstep_counts_as_int max_dim cutoff _ _ _ Hint Hszt)
    in Hsv, HU, HV.
  assert (Hpt : picked_triples p
                = map (rounded to_double)
                    (merge_as_worded max_dim cutoff
                       (triples svd_even) (triples svd_odd))).
  { unfold picked_triples, merge_as_worded. rewrite Hsv, HU, HV.
    apply zip3_maps. }
  exists p. split; [exact Hrun |]. split; [exact Hpt |].
  assert (Hlt : length (triples svd_odd) = length (triples svd_even))
    by (rewrite !length_triples by assumption; exact Hlen).
  destruct (lockstep_prefix max_dim cutoff (leading (triples svd_even))
              (triples svd_even) (triples svd_odd) 0)
    as (rest & Hpre & _).
  intros i. rewrite Hpt. unfold merge_as_worded. split; intros Hi.
  - rewrite (nth_error_map_prefix _ _ rest) by exact Hi.
    rewrite <- Hpre, interleave_nth_even by exact Hlt. reflexivity.
  - rewrite (nth_error_map_prefix _ _ rest) by exact Hi.
    rewrite <- Hpre, interleave_nth_odd by exact Hlt. reflexivity.
Qed.

Lemma well_formed_even_2_odd_2 : well_formed Model.even_2 Model.odd_2.
Proof. unfold well_formed, square. cbn. repeat split; reflexivity. Qed.

Lemma truncation_merge_is_lockstep_witness :
  exists p,
    pick (fun q => q) Model.even_2 Model.odd_2 3 (1 # 10) = Ok p /\
    picked_triples p
    = map (rounded (fun q => q))
        (merge_as_worded 3 (1 # 10)
           (triples Model.even_2) (triples Model.odd_2)) /\
    forall i : nat,
      ((2 * i < length (picked_triples p))%nat ->
       nth_error (picked_triples p) (2 * i)
       = option_map (rounded (fun q => q))
           (nth_error (triples Model.even_2) i)) /\
      ((2 * i + 1 < length (picked_triples p))%nat ->
       nth_error (picked_triples p) (2 * i + 1)
       = option_map (rounded (fun q => q))
           (nth_error (triples Model.odd_2) i)).
Proof.
  apply (truncation_merge_is_lockstep (fun q => q) Model.even_2 Model.odd_2
           3 (1 # 10)).
  - exact well_formed_even_2_odd_2.
  - discriminate.
  - unfold is_int. lia.
Defined.

End TruncationFacts.

Module BasisFacts.
Import Outcome Truncation Basis TruncationFacts.
Local Open Scope Q_scope.

Lemma length_assign {A : Type} (v : list A) (i : nat) (x : A) :
  length (assign v i x) = length v.
Proof.
  revert i. induction v as [| h t IH]; intros [| i]; simpl; auto.
Qed.

Lemma nth_error_assign_eq {A : Type} (v : list A) (i : nat) (x : A) :
  (i < length v)%nat -> nth_error (assign v i x) i = Some x.
Proof.
  revert i. induction v as [| h t IH]; intros [| i] H; simpl in *;
    try lia; auto.
  apply IH. lia.
Qed.

Lemma nth_error_assign_neq {A : Type} (v : list A) (i j : nat) (x : A) :
  i <> j -> nth_error (assign v i x) j = nth_error v j.
Proof.
  revert i j. induction v as [| h t IH]; intros [| i] [| j] H; simpl;
    try reflexivity; try congruence.
  apply IH. congruence.
Qed.

(** Case analysis on a run that is known to end in [Ok]. *)
Ltac ok_cases H :=
  repeat match type of H with
    | bind (at_ ?v ?i) _ = Ok _ =>
        let E := fresh "Hat" in
        destruct (at_ v i) eqn:E; cbn [bind] in H; try discriminate H
    | (if ?c then _ else _) = Ok _ =>
        let E := fresh "Hif" in destruct c eqn:E
    end.

Lemma assert_true (enabled : bool) : assert_ enabled true = Ok tt.
Proof. unfold assert_. rewrite andb_false_r. reflexivity. Qed.

Lemma assert_disabled (condition : bool) : assert_ false condition = Ok tt.
Proof. reflexivity. Qed.


Lemma to_size_t_nonneg (z : Z) : (0 <= to_size_t z)%Z.
Proof.
  unfold to_size_t, size_t_modulus. apply Z.mod_pos_bound. lia.
Qed.

Section PickLengths.

Variable to_double : Q -> Q.

(** The three vectors grow together. *)
Lemma pick_loop_lengths (svd_even svd_odd : BDCSVD) (max_dim : Z)
    (cutoff s0 : Q) :
  forall (n i : nat) (p p' : picked),
    pick_loop to_double n i svd_even svd_odd max_dim cutoff s0 p = Ok p' ->
    length (Uvec p) = length (sv p) -> length (Vvec p) = length (sv p) ->
    length (Uvec p') = length (sv p') /\ length (Vvec p') = length (sv p').
Proof.
  induction n as [| n IH]; intros i p p' H HU HV.
  - cbn in H. inversion H; subst. auto.
  - cbn [pick_loop] in H. ok_cases H;
      try (inversion H; subst; cbn [push sv Uvec Vvec]; unfold push_back;
           rewrite ?length_app; cbn [length]; split; congruence).
    apply IH in H; [exact H | |];
      cbn [push sv Uvec Vvec]; unfold push_back;
      rewrite ?length_app; cbn [length]; congruence.
Qed.

(** The count never passes the converted bound: the assertion after the
    loop, [assert(sv.size() <= max_dim)], holds on every run. *)
Lemma pick_loop_size (svd_even svd_odd : BDCSVD) (max_dim : Z)
    (cutoff s0 : Q) :
  forall (n i : nat) (p p' : picked),
    pick_loop to_double n i svd_even svd_odd max_dim cutoff s0 p = Ok p' ->
    (size (sv p) <= to_size_t max_dim)%Z ->
    (size (sv p') <= to_size_t max_dim)%Z.
Proof.
  induction n as [| n IH]; intros i p p' H Hle.
  - cbn in H. inversion H; subst. exact Hle.
  - cbn [pick_loop] in H. ok_cases H;
      cbn [push sv] in *; rewrite ?size_push_back in *;
      repeat match goal with
        | E : (_ =? _)%Z = true |- _ => apply Z.eqb_eq in E
        | E : (_ =? _)%Z = false |- _ => apply Z.eqb_neq in E
        end;
      try (inversion H; subst; cbn [push sv]; rewrite ?size_push_back; lia).
    apply IH in H; [exact H |].
    cbn [push sv]. rewrite !size_push_back. lia.
Qed.

Lemma pick_size (svd_even svd_odd : BDCSVD) (max_dim : Z) (cutoff : Q)
    (p : picked) :
  pick to_double svd_even svd_odd max_dim cutoff = Ok p ->
  (size (sv p) <=? to_size_t max_dim)%Z = true.
Proof.
  unfold pick. intros H. ok_cases H.
  apply pick_loop_size in H; [apply Z.leb_le; exact H |].
  apply to_size_t_nonneg.
Qed.

Lemma pick_lengths (svd_even svd_odd : BDCSVD) (max_dim : Z) (cutoff : Q)
    (p : picked) :
  pick to_double svd_even svd_odd max_dim cutoff = Ok p ->
  length (Uvec p) = length (sv p) /\ length (Vvec p) = length (sv p).
Proof.
  unfold pick. intros H. ok_cases H.
  apply pick_loop_lengths in H; auto.
Qed.

End PickLengths.

Section ConstructionFacts.

Context {pp : Type} {PP : PiecewisePolynomial pp} {E : Externals pp}.

Lemma length_gen_pp_loop (prec Nl : Z) (edges edges_pp : list Q) :
  forall (vectors : list vector_t) (v : nat) (l : list pp),
    gen_pp_loop prec Nl edges edges_pp v vectors = Ok l ->
    length l = length vectors.
Proof.
  induction vectors as [| vec rest IH]; intros v l H; cbn [gen_pp_loop] in H.
  - inversion H. reflexivity.
  - destruct (assert_ _ _) as [[] | | | |]; cbn [bind] in H; try discriminate H.
    destruct (gen_pp_loop _ _ _ _ _ rest) as [l' | | | |] eqn:Hrest;
      cbn [bind] in H; try discriminate H.
    inversion H; subst. cbn [length]. f_equal. eapply IH. exact Hrest.
Qed.

Lemma length_gen_pp (prec Nl : Z) (edges : list Q) (vectors : list vector_t)
    (l : list pp) :
  gen_pp prec Nl edges vectors = Ok l -> length l = length vectors.
Proof.
  unfold gen_pp. intros H.
  destruct (assert_ _ _) as [[] | | | |]; cbn [bind] in H; try discriminate H.
  eapply length_gen_pp_loop. exact H.
Qed.

(** The sign loop, index by index: up to [i] nothing is touched, from [i] on
    every pair gets the sign that the test on its [u] decides. *)
Lemma fix_signs_spec :
  forall (n i : nat) (u v : list pp),
    length v = length u -> (n + i = length u)%nat ->
    exists u' v',
      fix_signs n i u v = Ok (u', v') /\
      length u' = length u /\ length v' = length v /\
      forall j : nat,
        ((j < i)%nat ->
         nth_error u' j = nth_error u j /\ nth_error v' j = nth_error v j) /\
        ((i <= j)%nat ->
         forall uj vj,
           nth_error u j = Some uj -> nth_error v j = Some vj ->
           nth_error u' j = Some (with_sign (flipped uj) uj) /\
           nth_error v' j = Some (with_sign (flipped uj) vj)).
Proof.
  induction n as [| n IH]; intros i u v Hlen Hn.
  - exists u, v. cbn. split; [reflexivity |]. split; [reflexivity |].
    split; [reflexivity |]. intros j. split; [auto |].
    intros Hj uj vj Hu _. exfalso.
    assert (nth_error u j = None) by (apply nth_error_None; lia). congruence.
  - destruct (nth_error_in_range u i) as [ui Hui]; [lia |].
    destruct (nth_error_in_range v i) as [vi Hvi]; [lia |].
    cbn [fix_signs]. rewrite (at_some _ _ _ Hui). cbn [bind].
    destruct (flipped ui) eqn:Hflip.
    + rewrite (at_some _ _ _ Hvi). cbn [bind].
      destruct (IH (S i) (assign u i (scale (-1) ui))
                  (assign v i (scale (-1) vi)))
        as (u' & v' & Hrun & Hlu & Hlv & Hj).
      { rewrite !length_assign. exact Hlen. }
      { rewrite length_assign. lia. }
      rewrite !length_assign in *.
      exists u', v'. split; [exact Hrun |]. split; [exact Hlu |].
      split; [exact Hlv |]. intros j. destruct (Hj j) as [Hlt Hge]. split.
      * intros Hji. destruct (Hlt ltac:(lia)) as [H1 H2].
        rewrite H1, H2. rewrite !nth_error_assign_neq by lia. auto.
      * intros Hij uj vj Huj Hvj.
        destruct (Nat.eq_dec i j) as [Heq | Hne].
        -- subst j. destruct (Hlt ltac:(lia)) as [H1 H2].
           rewrite H1, H2. rewrite !nth_error_assign_eq by lia.
           assert (uj = ui) by congruence. assert (vj = vi) by congruence.
           subst uj vj. rewrite Hflip. auto.
        -- apply (Hge ltac:(lia) uj vj);
             rewrite nth_error_assign_neq by exact Hne; assumption.
    + destruct (IH (S i) u v Hlen) as (u' & v' & Hrun & Hlu & Hlv & Hj);
        [lia |].
      exists u', v'. split; [exact Hrun |]. split; [exact Hlu |].
      split; [exact Hlv |]. intros j. destruct (Hj j) as [Hlt Hge]. split.
      * intros Hji. apply Hlt. lia.
      * intros Hij uj vj Huj Hvj.
        destruct (Nat.eq_dec i j) as [Heq | Hne].
        -- subst j. destruct (Hlt ltac:(lia)) as [H1 H2].
           rewrite H1, H2.
           assert (uj = ui) by congruence. subst uj.
           rewrite Hflip. auto.
        -- apply (Hge ltac:(lia) uj vj); assumption.
Qed.

(** A successful run went through the stages in order. *)
Lemma impl_ok_inv (prec : Z) (knl : kernel) (max_dim : Z) (cutoff : Q)
    (Nl nn : Z) (ex ey : list Q) (s : list Q) (u v : list pp) :
  generate_ir_basis_functions_impl prec knl max_dim cutoff Nl nn ex ey
  = Ok (s, u, v) ->
  exists p u0 v0,
    pick to_double (matrix_rep_svd prec Even knl ex ey nn Nl)
      (matrix_rep_svd prec Odd knl ex ey nn Nl) max_dim cutoff = Ok p /\
    check_decreasing (sv p) = Ok tt /\
    s = sv p /\
    gen_pp prec Nl ex (Uvec p) = Ok u0 /\
    gen_pp prec Nl ey (Vvec p) = Ok v0 /\
    fix_signs (length u0) 0 u0 v0 = Ok (u, v).
Proof.
  unfold generate_ir_basis_functions_impl. intros H.
  destruct (pick _ _ _ _ _) as [p | | | |] eqn:Hp; cbn [bind] in H;
    try discriminate H.
  destruct (assert_ _ _) as [[] | | | |]; cbn [bind] in H;
    try discriminate H.
  destruct (check_decreasing (sv p)) as [[] | | | |] eqn:Hc; cbn [bind] in H;
    try discriminate H.
  destruct (gen_pp prec Nl ex (Uvec p)) as [u0 | | | |] eqn:Hu;
    cbn [bind] in H; try discriminate H.
  destruct (gen_pp prec Nl ey (Vvec p)) as [v0 | | | |] eqn:Hv;
    cbn [bind] in H; try discriminate H.
  destruct (fix_signs _ _ _ _) as [[u' v'] | | | |] eqn:Hf; cbn [bind] in H;
    try discriminate H.
  cbn [fst snd] in H. inversion H; subst.
  exists p, u0, v0. auto 10.
Qed.

Lemma impl_lengths (prec : Z) (knl : kernel) (max_dim : Z) (cutoff : Q)
    (Nl nn : Z) (ex ey : list Q) (s : list Q) (u v : list pp) :
  generate_ir_basis_functions_impl prec knl max_dim cutoff Nl nn ex ey
  = Ok (s, u, v) ->
  length u = length s /\ length v = length s.
Proof.
  intros H. destruct (impl_ok_inv _ _ _ _ _ _ _ _ _ _ _ H)
    as (p & u0 & v0 & Hp & _ & -> & Hu & Hv & Hf).
  destruct (pick_lengths _ _ _ _ _ _ Hp) as [HU HV].
  apply length_gen_pp in Hu. apply length_gen_pp in Hv.
  destruct (fix_signs_spec (length u0) 0 u0 v0)
    as (u' & v' & Hrun & Hlu & Hlv & _); [congruence | lia |].
  rewrite Hrun in Hf. inversion Hf; subst.
  split; congruence.
Qed.

(** C1 (amended). For every basis that construction returns, on
    well-formed decompositions with non-negative singular values and a
    positive leading one: the retained values never increase and are
    non-negative; there are at most [max_dim] of them when [max_dim] is not
    negative; every retained value is the cast of a candidate whose quotient
    by the leading even value is at least the cutoff; and when fewer than
    [max_dim] values are retained, the first excluded candidate has a
    quotient below the cutoff, and so has every excluded candidate if the
    interleaved candidates never increase. *)
Theorem retained_singular_values (prec : Z) (knl : kernel) (max_dim : Z)
    (cutoff : Q) (Nl nn : Z) (ex ey : list Q)
    (s : list Q) (u v : list pp) (svd_even svd_odd : BDCSVD)
    (s0 : Q) (tl : list Q) :
  svd_even = matrix_rep_svd prec Even knl ex ey nn Nl ->
  svd_odd = matrix_rep_svd prec Odd knl ex ey nn Nl ->
  well_formed svd_even svd_odd ->
  singularValues svd_even = s0 :: tl -> 0 < s0 ->
  (forall q, In q (singularValues svd_even ++ singularValues svd_odd) ->
             0 <= q) ->
  (forall q, 0 <= q -> 0 <= to_double q) ->
  is_int max_dim ->
  generate_ir_basis_functions_impl prec knl max_dim cutoff Nl nn ex ey
  = Ok (s, u, v) ->
  (length u = length s /\ length v = length s) /\
  (forall l a b,
     nth_error s l = Some a -> nth_error s (S l) = Some b -> b <= a) /\
  (forall l a, nth_error s l = Some a -> 0 <= a) /\
  ((0 <= max_dim)%Z -> (size s <= max_dim)%Z) /\
  (forall l a,
     nth_error s l = Some a ->
     exists sigma,
       candidate svd_even svd_odd l = Some sigma /\
       a = to_double sigma /\ cutoff <= sigma / s0) /\
  (size s <> max_dim ->
   forall sigma,
     candidate svd_even svd_odd (length s) = Some sigma ->
     sigma / s0 < cutoff) /\
  (size s <> max_dim ->
   non_increasing
     (interleave (singularValues svd_even) (singularValues svd_odd)) ->
   forall l sigma,
     (length s <= l)%nat -> candidate svd_even svd_odd l = Some sigma ->
     sigma / s0 < cutoff).
Proof.
  intros -> -> Hwf Hd Hs0 Hnn Hround Hint Hok.
  split; [exact (impl_lengths _ _ _ _ _ _ _ _ _ _ _ Hok) |].
  destruct (impl_ok_inv _ _ _ _ _ _ _ _ _ _ _ Hok)
    as (p & _ & _ & Hp & Hcheck & -> & _).
  destruct (pick_values to_double _ _ max_dim cutoff s0 tl Hwf Hd Hint)
    as (p' & sigmas & rest & Hp' & Hpre & Hsv & Hkept & Hcap & Hnext).
  rewrite Hp in Hp'. inversion Hp'; subst p'. clear Hp'.
  set (svd_even := matrix_rep_svd prec Even knl ex ey nn Nl) in *.
  set (svd_odd := matrix_rep_svd prec Odd knl ex ey nn Nl) in *.
  assert (Hlen : length (sv p) = length sigmas)
    by (rewrite Hsv, length_map; reflexivity).
  assert (Hsize : size (sv p) = size sigmas) by (unfold size; lia).
  assert (Hbound : (size (sv p) <= size_t_modulus)%Z).
  { destruct Hwf as (_ & _ & _ & Hsz).
    pose proof (length_interleave (singularValues svd_even)
                  (singularValues svd_odd)) as Hli.
    rewrite Hpre, length_app in Hli.
    unfold size, size_t_modulus in *. lia. }
  assert (Hne : sv p <> []).
  { intros Hnil. rewrite Hnil in Hcheck.
    rewrite check_decreasing_empty in Hcheck. discriminate. }
  assert (Hcand : forall l a,
             nth_error (sv p) l = Some a ->
             exists sigma,
               nth_error sigmas l = Some sigma /\ a = to_double sigma /\
               candidate svd_even svd_odd l = Some sigma).
  { intros l a Ha. rewrite Hsv, nth_error_map in Ha.
    destruct (nth_error sigmas l) as [sigma |] eqn:Hsig; [| discriminate].
    cbn in Ha. inversion Ha. exists sigma. repeat split.
    unfold candidate. rewrite Hpre, nth_error_app1; [exact Hsig |].
    apply nth_error_Some. congruence. }
  assert (Hfirst : size (sv p) <> max_dim ->
             forall sigma,
               candidate svd_even svd_odd (length (sv p)) = Some sigma ->
               sigma / s0 < cutoff).
  { intros Hsz sigma Hc. unfold candidate in Hc.
    rewrite Hpre, Hlen, nth_error_app2, Nat.sub_diag in Hc by lia.
    destruct rest as [| x rest]; [discriminate |].
    cbn in Hc. inversion Hc; subst x.
    destruct Hnext as [Hn | Hn]; [congruence |].
    apply dropped_pos; assumption. }
  split.
  { rewrite (check_decreasing_nonempty (sv p) Hne Hbound) in Hcheck.
    destruct (first_violation (sv p)) eqn:Hv; [discriminate |].
    apply non_increasing_nth. exact Hv. }
  split.
  { intros l a Ha. destruct (Hcand l a Ha) as (sigma & _ & -> & Hc).
    apply Hround, Hnn, in_interleave.
    unfold candidate in Hc. apply nth_error_In in Hc. exact Hc. }
  split; [rewrite Hsize; exact Hcap |].
  split.
  { intros l a Ha. destruct (Hcand l a Ha) as (sigma & Hsig & -> & Hc).
    exists sigma. repeat split; [exact Hc |].
    apply kept_pos; [exact Hs0 |].
    rewrite Forall_forall in Hkept. apply Hkept.
    apply nth_error_In in Hsig. exact Hsig. }
  split; [exact Hfirst |].
  intros Hsz Hsorted l sigma Hl Hc.
  destruct (nth_error_in_range
              (interleave (singularValues svd_even) (singularValues svd_odd))
              (length (sv p))) as [x Hx].
  { apply Nat.le_lt_trans with l; [exact Hl |].
    apply nth_error_Some. unfold candidate in Hc. congruence. }
  apply Qle_lt_trans with (x / s0).
  - apply Qmult_le_compat_r.
    + replace l with ((l - length (sv p)) + length (sv p))%nat in Hc by lia.
      apply (non_increasing_le _ Hsorted _ _ _ _ Hx Hc).
    + apply Qlt_le_weak, Qinv_lt_0_compat. exact Hs0.
  - apply Hfirst; assumption.
Qed.

Lemma with_sign_endpoint (ul : pp) :
  scale_scales_values -> 0 <= compute_value (with_sign (flipped ul) ul) 1.
Proof.
  intros Hlaw. unfold with_sign.
  destruct (flipped ul) eqn:Hf; unfold flipped in Hf.
  - apply Qlt_bool_iff in Hf. rewrite (Hlaw (-1) ul 1).
    setoid_replace (-1 * compute_value ul 1) with (- compute_value ul 1)
      by ring.
    apply Qlt_le_weak. change 0 with (- 0).
    apply Qopp_lt_compat. exact Hf.
  - apply Qlt_bool_false in Hf. exact Hf.
Qed.

(** C6. After construction every retained [u_l] has [u_l(1) >= 0], and the
    sign flip that enforces it is applied to [u_l] and to the paired [v_l]
    alike. *)
Theorem endpoint_sign_convention (prec : Z) (knl : kernel) (max_dim : Z)
    (cutoff : Q) (Nl nn : Z) (ex ey : list Q) (s : list Q) (u v : list pp) :
  scale_scales_values ->
  generate_ir_basis_functions_impl prec knl max_dim cutoff Nl nn ex ey
  = Ok (s, u, v) ->
  exists p u0 v0,
    pick to_double (matrix_rep_svd prec Even knl ex ey nn Nl)
      (matrix_rep_svd prec Odd knl ex ey nn Nl) max_dim cutoff = Ok p /\
    gen_pp prec Nl ex (Uvec p) = Ok u0 /\
    gen_pp prec Nl ey (Vvec p) = Ok v0 /\
    forall l : nat,
      (l < length s)%nat ->
      exists ul vl,
        nth_error u0 l = Some ul /\
        nth_error v0 l = Some vl /\
        nth_error u l = Some (with_sign (flipped ul) ul) /\
        nth_error v l = Some (with_sign (flipped ul) vl) /\
        0 <= compute_value (with_sign (flipped ul) ul) 1.
Proof.
  intros Hlaw Hok.
  destruct (impl_ok_inv _ _ _ _ _ _ _ _ _ _ _ Hok)
    as (p & u0 & v0 & Hp & _ & -> & Hu & Hv & Hf).
  exists p, u0, v0. split; [exact Hp |]. split; [exact Hu |].
  split; [exact Hv |].
  destruct (pick_lengths _ _ _ _ _ _ Hp) as [HU HV].
  apply length_gen_pp in Hu. apply length_gen_pp in Hv.
  destruct (fix_signs_spec (length u0) 0 u0 v0)
    as (u' & v' & Hrun & _ & _ & Hj); [congruence | lia |].
  rewrite Hrun in Hf. inversion Hf; subst u' v'. clear Hf.
  intros l Hl.
  destruct (nth_error_in_range u0 l) as [ul Hul]; [lia |].
  destruct (nth_error_in_range v0 l) as [vl Hvl]; [lia |].
  exists ul, vl.
  destruct (Hj l) as [_ Hge].
  destruct (Hge ltac:(lia) ul vl Hul Hvl) as [H1 H2].
  repeat split; auto. apply with_sign_endpoint. exact Hlaw.
Qed.

(** The stages after a successful pick; the assertion on the count
    passes. *)
Lemma impl_after_pick (prec : Z) (knl : kernel) (max_dim : Z) (cutoff : Q)
    (Nl nn : Z) (ex ey : list Q) (p : picked) :
  pick to_double (matrix_rep_svd prec Even knl ex ey nn Nl)
    (matrix_rep_svd prec Odd knl ex ey nn Nl) max_dim cutoff = Ok p ->
  generate_ir_basis_functions_impl prec knl max_dim cutoff Nl nn ex ey
  = (_ <- check_decreasing (sv p) ;;
     u_basis_pp <- gen_pp prec Nl ex (Uvec p) ;;
     v_basis_pp <- gen_pp prec Nl ey (Vvec p) ;;
     uv <- fix_signs (length u_basis_pp) 0 u_basis_pp v_basis_pp ;;
     Ok (sv p, fst uv, snd uv)).
Proof.
  intros Hp. unfold generate_ir_basis_functions_impl. rewrite Hp.
  cbn [bind]. rewrite (pick_size _ _ _ _ _ _ Hp), assert_true. reflexivity.
Qed.

Lemma pick_full_at_once (svd_even svd_odd : BDCSVD) (cutoff s0 : Q)
    (tl : list Q) :
  singularValues svd_even = s0 :: tl ->
  pick to_double svd_even svd_odd 0 cutoff = Ok no_pick.
Proof. intros Hd. unfold pick. rewrite Hd. reflexivity. Qed.

Lemma pick_cutoff_above_one (svd_even svd_odd : BDCSVD) (max_dim : Z)
    (cutoff s0 : Q) (tl : list Q) :
  singularValues svd_even = s0 :: tl -> 0 < s0 -> 1 < cutoff ->
  pick to_double svd_even svd_odd max_dim cutoff = Ok no_pick.
Proof.
  intros Hd Hs0 Hc. unfold pick. rewrite Hd.
  cbn [at_ nth_error bind length pick_loop].
  destruct (size (sv no_pick) =? to_size_t max_dim)%Z; [reflexivity |].
  rewrite Hd. cbn [at_ nth_error bind].
  rewrite (mp_div_pos s0 s0 Hs0). cbn [mp_lt].
  assert (Hlt : Qlt_bool (s0 / s0) cutoff = true).
  { apply Qlt_bool_iff. setoid_replace (s0 / s0) with 1; [exact Hc |].
    field. intros H0. rewrite H0 in Hs0. apply Qlt_irrefl in Hs0. exact Hs0. }
  rewrite Hlt. reflexivity.
Qed.

(** C10. The monotonicity check is memory-safe only if at least one triple
    was retained: whenever the truncation loop emits nothing - as for
    [max_dim = 0], or for a cutoff above 1 - the bound [sv.size()-1] wraps
    to [2^64 - 1] and the first turn of the check reads the empty [sv] out
    of bounds; on a non-empty [sv] the bound is [sv.size()-1] and every read
    is inside the vector. *)
Theorem empty_pick_reads_out_of_bounds (prec : Z) (knl : kernel)
    (max_dim : Z) (cutoff : Q) (Nl nn : Z) (ex ey : list Q) :
  (forall p,
     pick to_double (matrix_rep_svd prec Even knl ex ey nn Nl)
       (matrix_rep_svd prec Odd knl ex ey nn Nl) max_dim cutoff = Ok p ->
     sv p = [] ->
     check_bound (sv p) = (2 ^ 64 - 1)%Z /\
     generate_ir_basis_functions_impl prec knl max_dim cutoff Nl nn ex ey
     = OutOfBounds) /\
  (forall s0 tl,
     singularValues (matrix_rep_svd prec Even knl ex ey nn Nl) = s0 :: tl ->
     generate_ir_basis_functions_impl prec knl 0 cutoff Nl nn ex ey
     = OutOfBounds) /\
  (forall s0 tl,
     singularValues (matrix_rep_svd prec Even knl ex ey nn Nl) = s0 :: tl ->
     0 < s0 -> 1 < cutoff ->
     generate_ir_basis_functions_impl prec knl max_dim cutoff Nl nn ex ey
     = OutOfBounds) /\
  (forall p,
     pick to_double (matrix_rep_svd prec Even knl ex ey nn Nl)
       (matrix_rep_svd prec Odd knl ex ey nn Nl) max_dim cutoff = Ok p ->
     sv p <> [] -> (size (sv p) <= size_t_modulus)%Z ->
     check_bound (sv p) = (size (sv p) - 1)%Z /\
     check_decreasing (sv p) <> OutOfBounds).
Proof.
  assert (Hempty : forall md p,
            pick to_double (matrix_rep_svd prec Even knl ex ey nn Nl)
              (matrix_rep_svd prec Odd knl ex ey nn Nl) md cutoff = Ok p ->
            sv p = [] ->
            generate_ir_basis_functions_impl prec knl md cutoff Nl nn ex ey
            = OutOfBounds).
  { intros md p Hp Hnil. rewrite (impl_after_pick _ _ _ _ _ _ _ _ _ Hp).
    rewrite Hnil, check_decreasing_empty. reflexivity. }
  split; [| split; [| split]].
  - intros p Hp Hnil. split; [rewrite Hnil; reflexivity |].
    apply (Hempty max_dim p Hp Hnil).
  - intros s0 tl Hd. apply (Hempty 0%Z no_pick); [| reflexivity].
    apply (pick_full_at_once _ _ _ s0 tl Hd).
  - intros s0 tl Hd Hs0 Hc. apply (Hempty max_dim no_pick); [| reflexivity].
    apply (pick_cutoff_above_one _ _ _ _ s0 tl Hd Hs0 Hc).
  - intros p _ Hne Hsz. split; [apply check_bound_nonempty; assumption |].
    rewrite (check_decreasing_nonempty (sv p) Hne Hsz).
    destruct (first_violation (sv p)); discriminate.
Qed.

(** C8 (amended). If the merged sequence increases somewhere, construction
    ends in a runtime error and returns no basis; the error is one fixed
    message, whatever the place of the violation. *)
Theorem increasing_values_are_fatal (prec : Z) (knl : kernel) (max_dim : Z)
    (cutoff : Q) (Nl nn : Z) (ex ey : list Q) (p : picked)
    (l : nat) (a b : Q) :
  pick to_double (matrix_rep_svd prec Even knl ex ey nn Nl)
    (matrix_rep_svd prec Odd knl ex ey nn Nl) max_dim cutoff = Ok p ->
  (size (sv p) <= size_t_modulus)%Z ->
  nth_error (sv p) l = Some a -> nth_error (sv p) (S l) = Some b -> a < b ->
  generate_ir_basis_functions_impl prec knl max_dim cutoff Nl nn ex ey
  = Throw what_not_decreasing.
Proof.
  intros Hp Hsz Ha Hb Hab. rewrite (impl_after_pick _ _ _ _ _ _ _ _ _ Hp).
  assert (Hne : sv p <> []).
  { intros Hnil. rewrite Hnil in Ha. destruct l; discriminate. }
  destruct (violation_found (sv p) l a b Ha Hb Hab) as [l' Hv].
  rewrite (check_decreasing_nonempty (sv p) Hne Hsz), Hv. reflexivity.
Qed.

(** *** No stage of construction validates the configuration *)










Lemma constructed_inv (knl : kernel) (max_dim : Z) (cutoff : Q) (Nl : Z)
    (b : ir_basis_set pp) :
  new_ir_basis_set knl max_dim cutoff Nl = Ok b ->
  exists prec ex ey,
    generate_ir_basis_functions_impl prec knl max_dim cutoff Nl 12 ex ey
    = Ok (sv_ b, u_basis_ b, v_basis_ b).
Proof.
  unfold new_ir_basis_set, generate_ir_basis_functions. intros H.
  match type of H with
  | context [generate_ir_basis_functions_impl ?a ?b ?c ?d ?e ?f ?g ?h] =>
      exists a, g, h;
      destruct (generate_ir_basis_functions_impl a b c d e f g h)
        as [[[s u] v] | | | |] eqn:Himpl
  end; cbn [bind] in H; try discriminate H.
  cbn [fst snd u_basis_] in H.
  destruct (assert_ assertions (0 <? size u)%Z) as [[] | | | |];
    cbn [bind] in H; try discriminate H.
  match type of H with
  | bind ?c _ = _ => destruct c as [[] | | | |]
  end; cbn [bind] in H; try discriminate H.
  inversion H; subst. reflexivity.
Qed.

Lemma constructed_lengths (knl : kernel) (max_dim : Z) (cutoff : Q) (Nl : Z)
    (b : ir_basis_set pp) :
  new_ir_basis_set knl max_dim cutoff Nl = Ok b ->
  length (u_basis_ b) = length (sv_ b) /\
  length (v_basis_ b) = length (sv_ b).
Proof.
  intros H. destruct (constructed_inv _ _ _ _ _ H) as (prec & ex & ey & Himpl).
  eapply impl_lengths. exact Himpl.
Qed.

End ConstructionFacts.

(** *** The facade *)

Lemma python_runtime_check_true (enabled : bool) (message : string) :
  python_runtime_check enabled true message = Ok tt.
Proof. unfold python_runtime_check. rewrite andb_false_r. reflexivity. Qed.

Lemma python_runtime_check_false (enabled : bool) (message : string) :
  python_runtime_check enabled false message
  = if enabled then Throw message else Ok tt.
Proof. unfold python_runtime_check. rewrite andb_true_r. reflexivity. Qed.







Section FacadeFacts.

Context {pp : Type} {PP : PiecewisePolynomial pp} {E : Externals pp}.

Lemma at_int_in_range {A : Type} (v : list A) (l : Z) :
  (0 <= l < size v)%Z -> exists a, at_int v l = Ok a.
Proof.
  intros Hl. unfold at_int.
  destruct (Z.ltb_spec l 0); [lia |].
  destruct (nth_error_in_range v (Z.to_nat l)) as [a Ha];
    [unfold size in Hl; lia |].
  exists a. apply at_some. exact Ha.
Qed.

Lemma index_in_range_true (b : ir_basis_set pp) (l : Z) :
  (0 <= l < dim b)%Z ->
  index_in_range b l = true /\ (l <? 0)%Z || (l >=? dim b)%Z = false.
Proof.
  intros Hl. unfold index_in_range.
  destruct (Z.leb_spec 0 l); destruct (Z.ltb_spec l (dim b));
    destruct (Z.ltb_spec l 0); destruct (Z.geb_spec l (dim b));
    try lia; auto.
Qed.

Lemma index_in_range_false (b : ir_basis_set pp) (l : Z) :
  (l < 0 \/ dim b <= l)%Z ->
  index_in_range b l = false /\ (l <? 0)%Z || (l >=? dim b)%Z = true.
Proof.
  intros Hl. unfold index_in_range.
  destruct (Z.leb_spec 0 l); destruct (Z.ltb_spec l (dim b));
    destruct (Z.ltb_spec l 0); destruct (Z.geb_spec l (dim b));
    try lia; auto.
Qed.

Lemma in_domain_true (x : Q) :
  -1 <= x <= 1 ->
  in_domain x = true /\ Qlt_bool x (-1) || Qlt_bool 1 x = false.
Proof.
  intros [H1 H2]. unfold in_domain.
  rewrite (proj2 (Qle_bool_iff _ _) H1), (proj2 (Qle_bool_iff _ _) H2).
  rewrite (proj2 (Qlt_bool_false _ _) H1), (proj2 (Qlt_bool_false _ _) H2).
  auto.
Qed.

Lemma in_domain_false (x : Q) :
  x < -1 \/ 1 < x ->
  in_domain x = false /\ Qlt_bool x (-1) || Qlt_bool 1 x = true.
Proof.
  intros H. unfold in_domain, Qlt_bool.
  destruct (Qle_bool (-1) x) eqn:E1; destruct (Qle_bool x 1) eqn:E2;
    cbn; auto.
  apply Qle_bool_iff in E1. apply Qle_bool_iff in E2.
  destruct H as [H | H]; [apply Qlt_not_le in H | apply Qlt_not_le in H];
    contradiction.
Qed.

(** The value both evaluation functions compute from the stored function
    [f] once the arguments are accepted. *)
Lemma ulx_accepted (b : ir_basis_set pp) (l : Z) (x : Q) :
  (0 <= l < dim b)%Z -> -1 <= x <= 1 ->
  ulx b l x
  = (f <- at_int (u_basis_ b) l ;;
     if Qle_bool 0 x then Ok (compute_value f x)
     else Ok (compute_value f (- x) * parity_sign l)).
Proof.
  intros Hl Hx. unfold ulx.
  destruct (index_in_range_true b l Hl) as [-> ->].
  destruct (in_domain_true x Hx) as [-> ->].
  rewrite !assert_true, !python_runtime_check_true. reflexivity.
Qed.

Lemma vly_accepted (b : ir_basis_set pp) (l : Z) (y : Q) :
  (0 <= l < dim b)%Z -> -1 <= y <= 1 ->
  vly b l y
  = (f <- at_int (v_basis_ b) l ;;
     if Qle_bool 0 y then Ok (compute_value f y)
     else Ok (compute_value f (- y) * parity_sign l)).
Proof.
  intros Hl Hy. unfold vly.
  destruct (index_in_range_true b l Hl) as [-> ->].
  destruct (in_domain_true y Hy) as [-> ->].
  rewrite !assert_true, !python_runtime_check_true. reflexivity.
Qed.



(** C7 (amended). With assertions compiled out, evaluating [ulx] or [vly]
    at an index outside [0, dim) - such as [dim] or [-1] - raises a range
    error, and at an argument outside [-1,1] - such as 1.5 or -1.5 - a
    domain error; either is raised before a basis function is read or
    evaluated.  With assertions compiled in, the leading [assert] ends the
    process instead. *)
Theorem invalid_arguments_raise (b : ir_basis_set pp) (l : Z) (x : Q) :
  (assertions = false ->
   ((l < 0 \/ dim b <= l)%Z ->
    (exists what, ulx b l x = Throw what /\ RangeError what) /\
    (exists what, vly b l x = Throw what /\ RangeError what)) /\
   ((0 <= l < dim b)%Z -> x < -1 \/ 1 < x ->
    (exists what, ulx b l x = Throw what /\ DomainError what) /\
    (exists what, vly b l x = Throw what /\ DomainError what))) /\
  (assertions = true ->
   (l < 0 \/ dim b <= l)%Z \/ x < -1 \/ 1 < x ->
   ulx b l x = Aborted /\ vly b l x = Aborted).
Proof.
  split.
  - intros Hndebug. split.
    + intros Hl. destruct (index_in_range_false b l Hl) as [Hr Hc].
      unfold ulx, vly.
      rewrite Hndebug, !assert_disabled, Hr, Hc, !python_runtime_check_false.
      cbn [bind]. destruct python_checks; cbn [bind].
      * split; eexists; (split; [reflexivity | left; reflexivity]).
      * unfold python_runtime_check. cbn [andb bind].
        split; eexists; (split; [reflexivity | right; reflexivity]).
    + intros Hl Hx. destruct (index_in_range_true b l Hl) as [Hr Hc].
      destruct (in_domain_false x Hx) as [Hd Hv].
      unfold ulx, vly.
      rewrite Hndebug, !assert_disabled, Hr, Hc, Hd, Hv,
        !python_runtime_check_true, !python_runtime_check_false.
      cbn [bind]. destruct python_checks; cbn [bind]; split; eexists;
        (split; [reflexivity | unfold DomainError; auto]).
  - intros Hdebug Hbad. unfold ulx, vly, assert_. rewrite Hdebug.
    destruct (in_domain x) eqn:Hd; cbn [andb negb bind]; [| auto].
    destruct Hbad as [Hl | Hx].
    + destruct (index_in_range_false b l Hl) as [-> _]. auto.
    + destruct (in_domain_false x Hx) as [Hd' _]. congruence.
Qed.

End FacadeFacts.

End BasisFacts.

Module ModelFacts.
Import Outcome Truncation Basis Model TruncationFacts BasisFacts.
Local Open Scope Q_scope.

Lemma eval_poly_scale (c : Q) (cs : list Q) (dx : Q) :
  eval_poly (map (Qmult c) cs) dx == c * eval_poly cs dx.
Proof.
  induction cs as [| a cs IH]; cbn [map eval_poly]; [ring |].
  rewrite IH. ring.
Qed.

(** The concrete piecewise polynomials satisfy the law of the interface. *)
Lemma segments_scale_value : scale_scales_values (pp := piecewise_polynomial).
Proof.
  unfold scale_scales_values. cbn [compute_value scale segments_pp].
  intros c p x. induction p as [| s rest IH].
  - cbn. ring.
  - destruct rest as [| s' rest].
    + cbn. apply eval_poly_scale.
    + change (segments_value (segments_scale c (s :: s' :: rest)) x)
        with (if Qlt_bool x (right_edge s)
              then eval_poly (map (Qmult c) (coeffs s)) (x - left_edge s)
              else segments_value (segments_scale c (s' :: rest)) x).
      change (segments_value (s :: s' :: rest) x)
        with (if Qlt_bool x (right_edge s)
              then eval_poly (coeffs s) (x - left_edge s)
              else segments_value (s' :: rest) x).
      destruct (Qlt_bool x (right_edge s)); [apply eval_poly_scale | exact IH].
Qed.

Lemma run_2_value :
  run_2
  = Ok ([1; 9 # 10; 1 # 2],
        [step_function edges_2 0 [3 # 5; 4 # 5];
         segments_scale (-1) (step_function edges_2 1 [0; - 1]);
         step_function edges_2 2 [- 4 # 5; 3 # 5]],
        [step_function edges_2 0 [1; 0];
         segments_scale (-1) (step_function edges_2 1 [0; 1]);
         step_function edges_2 2 [0; 1]]).
Proof. vm_compute. reflexivity. Qed.

End ModelFacts.

(** * The claims on concrete runs *)

Module Runs.
Import Outcome Truncation Basis Model TruncationFacts BasisFacts ModelFacts.
Local Open Scope Q_scope.

(** A negative [max_dim] converts to a count that is never reached: the
    cutoff alone ends the loop. *)
Example negative_max_dim_is_no_cap :
  pick (fun q => q) even_2 odd_2 (-1) (1 # 10)
  = Ok {| sv := [1; 9 # 10; 1 # 2; 2 # 5];
          Uvec := [[3 # 5; 4 # 5]; [0; - 1]; [- 4 # 5; 3 # 5]; [1; 0]];
          Vvec := [[1; 0]; [0; 1]; [0; 1]; [1; 0]] |}.
Proof. vm_compute. reflexivity. Qed.

(** With a zero leading value every quotient is a NaN, no comparison with
    the cutoff holds, and both zeros are kept. *)
Example zero_matrix_is_kept :
  pick (fun q => q) zero_1 zero_1 5 (1 # 10)
  = Ok {| sv := [0; 0]; Uvec := [[1]; [1]]; Vvec := [[1]; [1]] |}.
Proof. vm_compute. reflexivity. Qed.

(** Equal neighbours pass the check: only [sv[l] < sv[l+1]] throws. *)
Example equal_neighbours_pass : check_decreasing [1; 1; 1 # 2] = Ok tt.
Proof. vm_compute. reflexivity. Qed.

Lemma retained_singular_values_witness :
  exists s u v,
    run_2 = Ok (s, u, v) /\
    (length u = length s /\ length v = length s) /\
    ((0 <= 3)%Z -> (size s <= 3)%Z).
Proof.
  do 3 eexists. split; [exact run_2_value |].
  assert (Hnn : forall q,
            In q (singularValues even_2 ++ singularValues odd_2) -> 0 <= q).
  { intros q Hq. cbn in Hq.
    repeat (destruct Hq as [<- | Hq]; [unfold Qle; cbn; lia |]).
    contradiction. }
  pose proof (retained_singular_values (E := release_2)
                100 (fermionic 1) 3 (1 # 10) 1 12 edges_2 edges_2
                _ _ _ even_2 odd_2 1 [1 # 2]
                eq_refl eq_refl well_formed_even_2_odd_2 eq_refl
                ltac:(reflexivity) Hnn (fun q H => H)
                ltac:(unfold is_int; lia) run_2_value) as H.
  split; [exact (proj1 H) |].
  exact (proj1 (proj2 (proj2 (proj2 H)))).
Defined.

(** C1, as stated, fails: with [max_dim = 2] the even value 1/2 is
    excluded although its quotient by the leading value is not below the
    cutoff 1/10. *)
Lemma excluded_value_above_cutoff :
  exists s u v,
    generate_ir_basis_functions_impl (E := release_2)
      100 (fermionic 1) 2 (1 # 10) 1 12 edges_2 edges_2 = Ok (s, u, v) /\
    length s = 2%nat /\
    nth_error (singularValues even_2) 0 = Some 1 /\
    candidate even_2 odd_2 2 = Some (1 # 2) /\
    ~ (1 # 2) / 1 < 1 # 10.
Proof.
  do 3 eexists. split; [vm_compute; reflexivity |].
  split; [reflexivity |]. split; [reflexivity |]. split; [reflexivity |].
  intros H. unfold Qlt in H. cbn in H. lia.
Qed.

Lemma endpoint_sign_convention_witness :
  exists p u0 v0,
    pick (fun q => q) even_2 odd_2 3 (1 # 10) = Ok p /\
    gen_pp (E := release_2) 100 1 edges_2 (Uvec p) = Ok u0 /\
    gen_pp (E := release_2) 100 1 edges_2 (Vvec p) = Ok v0 /\
    forall l : nat,
      (l < 3)%nat ->
      exists ul vl,
        nth_error u0 l = Some ul /\
        nth_error v0 l = Some vl /\
        nth_error
          [step_function edges_2 0 [3 # 5; 4 # 5];
           segments_scale (-1) (step_function edges_2 1 [0; - 1]);
           step_function edges_2 2 [- 4 # 5; 3 # 5]] l
        = Some (with_sign (flipped ul) ul) /\
        nth_error
          [step_function edges_2 0 [1; 0];
           segments_scale (-1) (step_function edges_2 1 [0; 1]);
           step_function edges_2 2 [0; 1]] l
        = Some (with_sign (flipped ul) vl) /\
        0 <= compute_value (with_sign (flipped ul) ul) 1.
Proof.
  exact (endpoint_sign_convention (E := release_2)
           100 (fermionic 1) 3 (1 # 10) 1 12 edges_2 edges_2 _ _ _
           segments_scale_value run_2_value).
Defined.



Lemma invalid_arguments_raise_witness :
  exists b,
    new_ir_basis_set (E := release_2)
      (fermionic 1) 3 (1 # 10) 1 = Ok b /\
    (exists what,
       ulx (E := release_2) b (dim b) 0 = Throw what /\
       RangeError what) /\
    (exists what,
       vly (E := release_2) b (-1) 0 = Throw what /\
       RangeError what) /\
    (exists what,
       ulx (E := release_2) b 0 (3 # 2) = Throw what /\
       DomainError what) /\
    (exists what,
       vly (E := release_2) b 0 (- (3 # 2)) = Throw what /\
       DomainError what).
Proof.
  eexists. split; [vm_compute; reflexivity |].
  match goal with
  | |- context [ulx ?b0 (dim ?b0) 0] => set (b := b0)
  end.
  assert (Hdim : (dim b <= dim b)%Z) by lia.
  assert (Hneg : (-1 < 0)%Z) by lia.
  assert (Hin : (0 <= 0 < dim b)%Z) by (cbn; lia).
  assert (Hhigh : 1 < 3 # 2) by (unfold Qlt; cbn; lia).
  assert (Hlow : - (3 # 2) < -1) by (unfold Qlt; cbn; lia).
  pose proof (proj1 (proj1 (invalid_arguments_raise
                              (E := release_2)
                              b (dim b) 0) eq_refl) (or_intror Hdim)) as H1.
  pose proof (proj1 (proj1 (invalid_arguments_raise
                              (E := release_2)
                              b (-1) 0) eq_refl) (or_introl Hneg)) as H2.
  pose proof (proj2 (proj1 (invalid_arguments_raise
                              (E := release_2)
                              b 0 (3 # 2)) eq_refl) Hin (or_intror Hhigh))
    as H3.
  pose proof (proj2 (proj1 (invalid_arguments_raise
                              (E := release_2)
                              b 0 (- (3 # 2))) eq_refl) Hin (or_introl Hlow))
    as H4.
  split; [exact (proj1 H1) |]. split; [exact (proj2 H2) |].
  split; [exact (proj1 H3) | exact (proj2 H4)].
Defined.

(** C7, as stated, fails where assertions are compiled in: the [assert] at
    the head of [ulx] and [vly] ends the process before either check can
    throw. *)
Lemma assertion_aborts_before_throw :
  exists b,
    new_ir_basis_set (E := debug_2)
      (fermionic 1) 3 (1 # 10) 1 = Ok b /\
    dim b = 3%Z /\
    ulx (E := debug_2) b 3 0 = Aborted /\
    vly (E := debug_2) b (-1) 0 = Aborted /\
    ulx (E := debug_2) b 0 (3 # 2) = Aborted /\
    vly (E := debug_2) b 0 (- (3 # 2)) = Aborted.
Proof.
  eexists. split; [vm_compute; reflexivity |].
  repeat split; vm_compute; reflexivity.
Qed.

Lemma increasing_values_are_fatal_witness :
  exists p,
    pick (fun q => q) even_2 odd_2_unstable 4 (1 # 10) = Ok p /\
    sv p = [1; 9 # 10; 1 # 2; 3 # 5] /\
    generate_ir_basis_functions_impl
      (E := unstable_2)
      100 (fermionic 1) 4 (1 # 10) 1 12 edges_2 edges_2
    = Throw what_not_decreasing.
Proof.
  eexists. split; [vm_compute; reflexivity |].
  split; [vm_compute; reflexivity |].
  eapply (increasing_values_are_fatal
            (E := unstable_2)
            100 (fermionic 1) 4 (1 # 10) 1 12 edges_2 edges_2 _
            2 (1 # 2) (3 # 5)).
  - vm_compute. reflexivity.
  - vm_compute. discriminate.
  - vm_compute. reflexivity.
  - vm_compute. reflexivity.
  - unfold Qlt. cbn. lia.
Defined.

(** C8, as stated, fails in its second half: a violation between merged
    indices 2 and 3 (second values of the two sectors) and a violation
    between merged indices 0 and 1 (leading values of the two sectors) end
    in one and the same error, so nothing computed from the error tells the
    two places apart. *)
Lemma error_is_blind_to_violation :
  exists p1 p2 what1 what2,
    pick (fun q => q) even_2 odd_2_unstable 4 (1 # 10) = Ok p1 /\
    first_violation (sv p1) = Some 2%nat /\
    pick (fun q => q) even_1 odd_1_unstable 4 (1 # 10) = Ok p2 /\
    first_violation (sv p2) = Some 0%nat /\
    new_ir_basis_set (E := unstable_2)
      (fermionic 1) 4 (1 # 10) 1 = Throw what1 /\
    new_ir_basis_set (E := unstable_1)
      (fermionic 1) 4 (1 # 10) 1 = Throw what2 /\
    forall locate : string -> nat,
      ~ (locate what1 = 2%nat /\ locate what2 = 0%nat).
Proof.
  do 4 eexists.
  split; [vm_compute; reflexivity |]. split; [vm_compute; reflexivity |].
  split; [vm_compute; reflexivity |]. split; [vm_compute; reflexivity |].
  split; [vm_compute; reflexivity |]. split; [vm_compute; reflexivity |].
  intros locate [H1 H0]. rewrite H1 in H0. discriminate.
Qed.


Lemma empty_pick_reads_out_of_bounds_witness :
  generate_ir_basis_functions_impl (E := release_2)
    100 (fermionic 1) 0 (1 # 10) 1 12 edges_2 edges_2 = OutOfBounds /\
  generate_ir_basis_functions_impl (E := release_2)
    100 (fermionic 1) 5 2 1 12 edges_2 edges_2 = OutOfBounds.
Proof.
  split.
  - exact (proj1 (proj2 (empty_pick_reads_out_of_bounds
                           (E := release_2)
                           100 (fermionic 1) 0 (1 # 10) 1 12 edges_2 edges_2))
             1 [1 # 2] eq_refl).
  - exact (proj1 (proj2 (proj2 (empty_pick_reads_out_of_bounds
                           (E := release_2)
                           100 (fermionic 1) 5 2 1 12 edges_2 edges_2)))
             1 [1 # 2] eq_refl ltac:(reflexivity) ltac:(reflexivity)).
Defined.

End Runs.

(** * The kernels *)

Module KernelFacts.
Import Kernel.
Local Open Scope R_scope.

Lemma half_Lambda_div (L : R) : half_Lambda L = L / 2.
Proof. unfold half_Lambda. lra. Qed.

Lemma tiny_pos : 0 < tiny.
Proof. unfold tiny. apply Rinv_0_lt_compat. apply pow_lt. lra. Qed.

Lemma tiny_lt_1 : tiny < 1.
Proof.
  unfold tiny.
  assert (H : 1 < 10 ^ 30) by (apply Rlt_pow_R1; [lra | lia]).
  apply Rmult_lt_reg_r with (10 ^ 30); [lra |].
  rewrite Rinv_l by lra. lra.
Qed.

(** Beyond either threshold the argument is far from the singularity. *)
Lemma beyond_limit_not_tiny (t : R) : t > 200 \/ t < - 200 -> ~ Rabs t < tiny.
Proof.
  intros H Habs. pose proof tiny_lt_1 as Ht.
  destruct H as [H | H].
  - pose proof (Rle_abs t). lra.
  - rewrite Rabs_left in Habs by lra. lra.
Qed.

Ltac kernel_branch :=
  repeat match goal with
    | |- context [Rgt_dec ?a ?b] => destruct (Rgt_dec a b); try lra
    | |- context [Rlt_dec ?a ?b] => destruct (Rlt_dec a b); try lra
    end.

(** C3. For [Lambda > 0] and [x], [y] in [-1,1], the fermionic kernel is
    [exp(-(Lambda/2)xy - (Lambda/2)y)] when [Lambda*y > 200],
    [exp(-(Lambda/2)xy + (Lambda/2)y)] when [Lambda*y < -200], and
    [exp(-(Lambda/2)xy) / (2 cosh((Lambda/2)y))] otherwise. *)
Theorem fermionic_kernel_branches (Lambda x y : R)
    (HL : 0 < Lambda) (Hx : -1 <= x <= 1) (Hy : -1 <= y <= 1) :
  (Lambda * y > 200 ->
     fermionic_kernel Lambda x y
     = exp (- (Lambda / 2) * x * y - (Lambda / 2) * y)) /\
  (Lambda * y < - 200 ->
     fermionic_kernel Lambda x y
     = exp (- (Lambda / 2) * x * y + (Lambda / 2) * y)) /\
  (- 200 <= Lambda * y <= 200 ->
     fermionic_kernel Lambda x y
     = exp (- (Lambda / 2) * x * y) / (2 * cosh ((Lambda / 2) * y))).
Proof.
  unfold fermionic_kernel, limit. rewrite half_Lambda_div.
  repeat split; intros Hb; kernel_branch; reflexivity.
Qed.

Lemma fermionic_kernel_branches_witness :
  fermionic_kernel 300 1 1 = exp (- (300 / 2) * 1 * 1 - (300 / 2) * 1) /\
  fermionic_kernel 300 1 (-1) = exp (- (300 / 2) * 1 * -1 + (300 / 2) * -1) /\
  fermionic_kernel 300 1 0
  = exp (- (300 / 2) * 1 * 0) / (2 * cosh ((300 / 2) * 0)).
Proof.
  assert (HL : 0 < 300) by lra.
  assert (H1 : -1 <= 1 <= 1) by lra.
  assert (Hm : -1 <= -1 <= 1) by lra.
  assert (H0 : -1 <= 0 <= 1) by lra.
  split; [| split].
  - apply (proj1 (fermionic_kernel_branches 300 1 1 HL H1 H1)). lra.
  - apply (proj1 (proj2 (fermionic_kernel_branches 300 1 (-1) HL H1 Hm))). lra.
  - apply (proj2 (proj2 (fermionic_kernel_branches 300 1 0 HL H1 H0))). lra.
Defined.

(** C4, as stated, fails below the negative threshold: there the code puts
    the factor [-y] before the exponential, so the value is positive, while
    the worded form with the factor [y] is negative. *)
Lemma bosonic_factor_below_threshold :
  0 < 300 /\ -1 <= 0 <= 1 /\ -1 <= -1 <= 1 /\ 300 * -1 < - 200 /\
  bosonic_kernel 300 0 (-1) <> bosonic_kernel_as_worded 300 0 (-1).
Proof.
  split; [lra |]. split; [lra |]. split; [lra |]. split; [lra |].
  unfold bosonic_kernel, bosonic_kernel_as_worded, limit.
  destruct (Rlt_dec (Rabs (300 * -1)) tiny) as [Ht | _].
  { exfalso.
    apply (beyond_limit_not_tiny (300 * -1)); [right; lra | exact Ht]. }
  rewrite half_Lambda_div.
  pose proof (exp_pos (- (300 / 2) * 0 * -1 + 300 / 2 * -1)) as He.
  kernel_branch.
Qed.

(** C4 (amended). For [Lambda > 0] and [x], [y] in [-1,1], the bosonic
    kernel is [exp(-(Lambda/2)xy) / Lambda] when [|Lambda*y| < 1e-30];
    otherwise it is [y exp(-(Lambda/2)xy - (Lambda/2)y)] when
    [Lambda*y > 200], [-y exp(-(Lambda/2)xy + (Lambda/2)y)] when
    [Lambda*y < -200], and [y exp(-(Lambda/2)xy) / (2 sinh((Lambda/2)y))]
    in between. *)
Theorem bosonic_kernel_branches (Lambda x y : R)
    (HL : 0 < Lambda) (Hx : -1 <= x <= 1) (Hy : -1 <= y <= 1) :
  (Rabs (Lambda * y) < / 10 ^ 30 ->
     bosonic_kernel Lambda x y = exp (- (Lambda / 2) * x * y) / Lambda) /\
  (Lambda * y > 200 ->
     bosonic_kernel Lambda x y
     = y * exp (- (Lambda / 2) * x * y - (Lambda / 2) * y)) /\
  (Lambda * y < - 200 ->
     bosonic_kernel Lambda x y
     = - y * exp (- (Lambda / 2) * x * y + (Lambda / 2) * y)) /\
  (/ 10 ^ 30 <= Rabs (Lambda * y) -> - 200 <= Lambda * y <= 200 ->
     bosonic_kernel Lambda x y
     = y * exp (- (Lambda / 2) * x * y) / (2 * sinh ((Lambda / 2) * y))).
Proof.
  unfold bosonic_kernel, limit. rewrite half_Lambda_div.
  fold tiny.
  split; [| split; [| split]].
  - intros Hb. destruct (Rlt_dec (Rabs (Lambda * y)) tiny); [reflexivity | lra].
  - intros Hb.
    destruct (Rlt_dec (Rabs (Lambda * y)) tiny) as [Ht | _].
    { exfalso.
      apply (beyond_limit_not_tiny (Lambda * y)); [left; lra | exact Ht]. }
    kernel_branch; reflexivity.
  - intros Hb.
    destruct (Rlt_dec (Rabs (Lambda * y)) tiny) as [Ht | _].
    { exfalso.
      apply (beyond_limit_not_tiny (Lambda * y)); [right; lra | exact Ht]. }
    kernel_branch; reflexivity.
  - intros Ht Hb.
    destruct (Rlt_dec (Rabs (Lambda * y)) tiny) as [Ht' | _]; [lra |].
    kernel_branch; reflexivity.
Qed.

Lemma bosonic_kernel_branches_witness :
  bosonic_kernel 300 1 0 = exp (- (300 / 2) * 1 * 0) / 300 /\
  bosonic_kernel 300 1 1 = 1 * exp (- (300 / 2) * 1 * 1 - (300 / 2) * 1) /\
  bosonic_kernel 300 1 (-1)
  = - -1 * exp (- (300 / 2) * 1 * -1 + (300 / 2) * -1).
Proof.
  assert (HL : 0 < 300) by lra.
  assert (H1 : -1 <= 1 <= 1) by lra.
  assert (Hm : -1 <= -1 <= 1) by lra.
  assert (H0 : -1 <= 0 <= 1) by lra.
  split; [| split].
  - apply (proj1 (bosonic_kernel_branches 300 1 0 HL H1 H0)).
    rewrite Rmult_0_r, Rabs_R0. apply tiny_pos.
  - apply (proj1 (proj2 (bosonic_kernel_branches 300 1 1 HL H1 H1))). lra.
  - apply (proj1 (proj2 (proj2 (bosonic_kernel_branches 300 1 (-1) HL H1 Hm)))).
    lra.
Defined.

End KernelFacts.

(** * Further properties of the kernels *)

Module KernelSymmetry.
Import Kernel Symmetrised KernelFacts.
Local Open Scope R_scope.

Lemma cosh_opp (t : R) : cosh (- t) = cosh t.
Proof. unfold cosh. rewrite Ropp_involutive. f_equal. apply Rplus_comm. Qed.

Lemma sinh_opp (t : R) : sinh (- t) = - sinh t.
Proof. unfold sinh. rewrite Ropp_involutive. lra. Qed.

Lemma cosh_pos (t : R) : 0 < cosh t.
Proof.
  unfold cosh. pose proof (exp_pos t). pose proof (exp_pos (- t)). lra.
Qed.

Lemma sinh_pos (t : R) : 0 < t -> 0 < sinh t.
Proof.
  intros Ht. unfold sinh.
  assert (exp (- t) < exp t) by (apply exp_increasing; lra). lra.
Qed.

Lemma sinh_neg (t : R) : t < 0 -> sinh t < 0.
Proof.
  intros Ht. unfold sinh.
  assert (exp t < exp (- t)) by (apply exp_increasing; lra). lra.
Qed.

Lemma exp_le_1 (t : R) : t <= 0 -> exp t <= 1.
Proof.
  intros [Ht | ->]; [| rewrite exp_0; lra].
  rewrite <- exp_0. left. apply exp_increasing. exact Ht.
Qed.

Ltac same_exponent := f_equal; unfold half_Lambda; ring.

(** The two asymptotic branches of the fermionic kernel are each other's
    mirror image. *)
Lemma fermionic_reflect (Lambda x y : R) :
  fermionic_kernel Lambda (- x) (- y) = fermionic_kernel Lambda x y.
Proof.
  unfold fermionic_kernel, limit.
  repeat match goal with
    | |- context [Rgt_dec ?a ?b] => destruct (Rgt_dec a b)
    | |- context [Rlt_dec ?a ?b] => destruct (Rlt_dec a b)
    end; try lra.
  - same_exponent.
  - same_exponent.
  - replace (half_Lambda Lambda * - y) with (- (half_Lambda Lambda * y))
      by ring.
    rewrite cosh_opp. f_equal. same_exponent.
Qed.

(** The factor [-y] below the negative threshold mirrors the factor [y]
    above the positive one. *)
Lemma bosonic_reflect (Lambda x y : R) :
  bosonic_kernel Lambda (- x) (- y) = bosonic_kernel Lambda x y.
Proof.
  unfold bosonic_kernel, limit.
  replace (Lambda * - y) with (- (Lambda * y)) by ring.
  rewrite Rabs_Ropp.
  destruct (Rlt_dec (Rabs (Lambda * y)) tiny) as [Ht | Ht].
  { f_equal. same_exponent. }
  repeat match goal with
    | |- context [Rgt_dec ?a ?b] => destruct (Rgt_dec a b)
    | |- context [Rlt_dec ?a ?b] => destruct (Rlt_dec a b)
    end; try lra.
  - f_equal. same_exponent.
  - rewrite Ropp_involutive. f_equal. same_exponent.
  - replace (half_Lambda Lambda * - y) with (- (half_Lambda Lambda * y))
      by ring.
    rewrite sinh_opp.
    replace (- half_Lambda Lambda * - x * - y)
      with (- half_Lambda Lambda * x * y) by ring.
    assert (Hs : sinh (half_Lambda Lambda * y) <> 0).
    { assert (Hy : Lambda * y <> 0).
      { intros H0. apply Ht. rewrite H0, Rabs_R0. apply tiny_pos. }
      unfold half_Lambda.
      destruct (Rlt_dec (1 / 2 * Lambda * y) 0) as [Hlt | Hge].
      - apply Rlt_not_eq, sinh_neg. exact Hlt.
      - apply Rgt_not_eq, sinh_pos. lra. }
    field. exact Hs.
Qed.

(** For a kernel with the reflection symmetry, the even part is even in
    each argument and the odd part is odd in each argument. *)
Lemma symmetrised_parity (K : R -> R -> R) :
  (forall x y, K (- x) (- y) = K x y) ->
  forall x y,
    kernel_even K x (- y) = kernel_even K x y /\
    kernel_even K (- x) y = kernel_even K x y /\
    kernel_odd K x (- y) = - kernel_odd K x y /\
    kernel_odd K (- x) y = - kernel_odd K x y /\
    kernel_even K x y + kernel_odd K x y = 2 * K x y.
Proof.
  intros Hrefl x y. unfold kernel_even, kernel_odd.
  rewrite Ropp_involutive.
  pose proof (Hrefl x y) as H1. pose proof (Hrefl x (- y)) as H2.
  rewrite Ropp_involutive in H2.
  repeat split; try lra.
Qed.

(** X1. The fermionic kernel is invariant under the reflection of both
    arguments, [K(-x,-y) = K(x,y)], in every branch and for every Lambda.
    Hence the kernel the even sector is built from is even in x and in y,
    the kernel of the odd sector is odd in x and in y, and the two add up
    to twice the kernel. *)
Theorem fermionic_kernel_reflection (Lambda x y : R) :
  fermionic_kernel Lambda (- x) (- y) = fermionic_kernel Lambda x y /\
  kernel_even (fermionic_kernel Lambda) x (- y)
  = kernel_even (fermionic_kernel Lambda) x y /\
  kernel_even (fermionic_kernel Lambda) (- x) y
  = kernel_even (fermionic_kernel Lambda) x y /\
  kernel_odd (fermionic_kernel Lambda) x (- y)
  = - kernel_odd (fermionic_kernel Lambda) x y /\
  kernel_odd (fermionic_kernel Lambda) (- x) y
  = - kernel_odd (fermionic_kernel Lambda) x y /\
  kernel_even (fermionic_kernel Lambda) x y
  + kernel_odd (fermionic_kernel Lambda) x y
  = 2 * fermionic_kernel Lambda x y.
Proof.
  split; [apply fermionic_reflect |].
  apply symmetrised_parity. intros x' y'. apply fermionic_reflect.
Qed.

(** X2. The bosonic kernel has the same reflection symmetry, and its even
    and odd parts the same parities. *)
Theorem bosonic_kernel_reflection (Lambda x y : R) :
  bosonic_kernel Lambda (- x) (- y) = bosonic_kernel Lambda x y /\
  kernel_even (bosonic_kernel Lambda) x (- y)
  = kernel_even (bosonic_kernel Lambda) x y /\
  kernel_even (bosonic_kernel Lambda) (- x) y
  = kernel_even (bosonic_kernel Lambda) x y /\
  kernel_odd (bosonic_kernel Lambda) x (- y)
  = - kernel_odd (bosonic_kernel Lambda) x y /\
  kernel_odd (bosonic_kernel Lambda) (- x) y
  = - kernel_odd (bosonic_kernel Lambda) x y /\
  kernel_even (bosonic_kernel Lambda) x y
  + kernel_odd (bosonic_kernel Lambda) x y
  = 2 * bosonic_kernel Lambda x y.
Proof.
  split; [apply bosonic_reflect |].
  apply symmetrised_parity. intros x' y'. apply bosonic_reflect.
Qed.

Lemma exp_le_mono (t u : R) : t <= u -> exp t <= exp u.
Proof.
  intros [H | ->]; [left; apply exp_increasing; exact H | right; reflexivity].
Qed.

(** [exp(-a x)] is below [exp(a) + exp(-a)] for [x] in [-1,1]. *)
Lemma exp_below_two_cosh (a x : R) :
  -1 <= x <= 1 -> exp (- a * x) < exp a + exp (- a).
Proof.
  intros Hx. pose proof (exp_pos a). pose proof (exp_pos (- a)).
  destruct (Rle_dec 0 a) as [Ha | Ha].
  - assert (exp (- a * x) <= exp a) by (apply exp_le_mono; nra). lra.
  - assert (exp (- a * x) <= exp (- a)) by (apply exp_le_mono; nra). lra.
Qed.

(** X3. For [x] in [-1,1] the fermionic kernel takes its values in (0, 1],
    whatever [y] and [Lambda]: beyond the thresholds the exponent is never
    positive, and between them the quotient is below 1.  No branch can
    overflow. *)
Theorem fermionic_kernel_range (Lambda x y : R) :
  -1 <= x <= 1 ->
  0 < fermionic_kernel Lambda x y <= 1.
Proof.
  intros Hx. unfold fermionic_kernel, limit, half_Lambda.
  repeat match goal with
    | |- context [Rgt_dec ?a ?b] => destruct (Rgt_dec a b)
    | |- context [Rlt_dec ?a ?b] => destruct (Rlt_dec a b)
    end.
  - split; [apply exp_pos |]. apply exp_le_1. nra.
  - split; [apply exp_pos |]. apply exp_le_1. nra.
  - set (a := 1 / 2 * Lambda * y).
    replace (- (1 / 2 * Lambda) * x * y) with (- a * x) by (unfold a; ring).
    pose proof (exp_pos (- a * x)) as He.
    pose proof (exp_below_two_cosh a x Hx) as Hb.
    assert (Hc : 2 * cosh a = exp a + exp (- a)) by (unfold cosh; lra).
    rewrite Hc. pose proof (exp_pos a). pose proof (exp_pos (- a)).
    split.
    + apply Rdiv_lt_0_compat; lra.
    + apply Rlt_le. apply Rmult_lt_reg_r with (exp a + exp (- a)); [lra |].
      unfold Rdiv. rewrite Rmult_assoc, Rinv_l by lra. lra.
Qed.

Lemma fermionic_kernel_range_witness :
  0 < fermionic_kernel 1000 (1 / 2) (-1) <= 1.
Proof. apply fermionic_kernel_range. lra. Defined.

(** X4. For [Lambda > 0] the bosonic kernel is positive everywhere: at the
    removable singularity, in both asymptotic branches (the factor is [y]
    where [y > 0] and [-y] where [y < 0]) and in the central branch, where
    [y] and [sinh] have the same sign. *)
Theorem bosonic_kernel_positive (Lambda x y : R) :
  0 < Lambda -> 0 < bosonic_kernel Lambda x y.
Proof.
  intros HL. unfold bosonic_kernel, limit.
  destruct (Rlt_dec (Rabs (Lambda * y)) tiny) as [Ht | Ht].
  { apply Rdiv_lt_0_compat; [apply exp_pos | exact HL]. }
  assert (Hy : y <> 0).
  { intros ->. apply Ht. rewrite Rmult_0_r, Rabs_R0. apply tiny_pos. }
  repeat match goal with
    | |- context [Rgt_dec ?a ?b] => destruct (Rgt_dec a b)
    | |- context [Rlt_dec ?a ?b] => destruct (Rlt_dec a b)
    end.
  - apply Rmult_lt_0_compat; [nra | apply exp_pos].
  - apply Rmult_lt_0_compat; [nra | apply exp_pos].
  - unfold half_Lambda.
    pose proof (exp_pos (- (1 / 2 * Lambda) * x * y)) as He.
    destruct (Rlt_dec y 0) as [Hneg | Hpos].
    + assert (Hs : sinh (1 / 2 * Lambda * y) < 0) by (apply sinh_neg; nra).
      replace (y * exp (- (1 / 2 * Lambda) * x * y)
               / (2 * sinh (1 / 2 * Lambda * y)))
        with ((- y) * exp (- (1 / 2 * Lambda) * x * y)
              / (2 * - sinh (1 / 2 * Lambda * y)))
        by (field; lra).
      apply Rdiv_lt_0_compat; [apply Rmult_lt_0_compat; lra | lra].
    + assert (Hs : 0 < sinh (1 / 2 * Lambda * y)) by (apply sinh_pos; nra).
      apply Rdiv_lt_0_compat; [apply Rmult_lt_0_compat; lra | lra].
Qed.

Lemma bosonic_kernel_positive_witness : 0 < bosonic_kernel 300 1 (-1).
Proof. apply bosonic_kernel_positive. lra. Defined.

(** X5. Beyond the thresholds the fermionic kernel is the closed form
    [exp(-(Lambda/2)xy) / (2 cosh((Lambda/2)y))] times [1 + exp(-|Lambda y|)]:
    the asymptotic branches overestimate the closed form by a relative
    excess below [exp(-200)]. *)
Theorem fermionic_asymptotic_excess (Lambda x y : R) :
  Rabs (Lambda * y) > 200 ->
  fermionic_kernel Lambda x y
  = exp (- (Lambda / 2) * x * y) / (2 * cosh ((Lambda / 2) * y))
    * (1 + exp (- Rabs (Lambda * y))) /\
  exp (- Rabs (Lambda * y)) < exp (- 200).
Proof.
  intros Hb. split; [| apply exp_increasing; lra].
  unfold fermionic_kernel, limit. rewrite half_Lambda_div.
  set (a := Lambda / 2 * y). set (b := - (Lambda / 2) * x * y).
  assert (Hc : 2 * cosh a = exp a + exp (- a)) by (unfold cosh; lra).
  pose proof (exp_pos a) as Ha. pose proof (exp_pos (- a)) as Hna.
  assert (Hinv : exp a * exp (- a) = 1).
  { rewrite <- exp_plus. replace (a + - a) with 0 by ring. apply exp_0. }
  repeat match goal with
    | |- context [Rgt_dec ?c ?d] => destruct (Rgt_dec c d)
    | |- context [Rlt_dec ?c ?d] => destruct (Rlt_dec c d)
    end.
  - rewrite Rabs_right by lra.
    replace (b - a) with (b + - a) by ring.
    replace (- (Lambda * y)) with (- a + - a) by (unfold a; field).
    rewrite !exp_plus, Hc. field_simplify_eq; [| lra].
    replace (exp b * exp (- a) * exp a)
      with (exp b * (exp a * exp (- a))) by ring.
    rewrite Hinv. ring.
  - rewrite Rabs_left by lra.
    replace (- - (Lambda * y)) with (a + a) by (unfold a; field).
    rewrite !exp_plus, Hc. field_simplify_eq; [| lra].
    replace (exp b * exp a * exp (- a))
      with (exp b * (exp a * exp (- a))) by ring.
    rewrite Hinv. ring.
  - exfalso. unfold Rabs in Hb. destruct (Rcase_abs (Lambda * y)); lra.
Qed.

Lemma fermionic_asymptotic_excess_witness :
  fermionic_kernel 300 (1 / 2) (-1)
  = exp (- (300 / 2) * (1 / 2) * -1) / (2 * cosh ((300 / 2) * -1))
    * (1 + exp (- Rabs (300 * -1))) /\
  exp (- Rabs (300 * -1)) < exp (- 200).
Proof.
  apply fermionic_asymptotic_excess.
  rewrite Rabs_left by lra. lra.
Defined.

(** X21. Beyond the thresholds the bosonic kernel is the closed form
    [y exp(-(Lambda/2)xy) / (2 sinh((Lambda/2)y))] times
    [1 - exp(-|Lambda y|)]: the asymptotic branches fall short of the closed
    form by a relative deficit below [exp(-200)]. *)
Theorem bosonic_asymptotic_deficit (Lambda x y : R) :
  Rabs (Lambda * y) > 200 ->
  bosonic_kernel Lambda x y
  = y * exp (- (Lambda / 2) * x * y) / (2 * sinh ((Lambda / 2) * y))
    * (1 - exp (- Rabs (Lambda * y))) /\
  exp (- Rabs (Lambda * y)) < exp (- 200).
Proof.
  intros Hb. split; [| apply exp_increasing; lra].
  unfold bosonic_kernel, limit. rewrite half_Lambda_div.
  pose proof tiny_lt_1 as Htiny.
  destruct (Rlt_dec (Rabs (Lambda * y)) tiny) as [Ht | _]; [lra |].
  set (a := Lambda / 2 * y). set (b := - (Lambda / 2) * x * y).
  assert (Hs : 2 * sinh a = exp a - exp (- a)) by (unfold sinh; lra).
  pose proof (exp_pos a) as Ha. pose proof (exp_pos (- a)) as Hna.
  assert (Hinv : exp a * exp (- a) = 1).
  { rewrite <- exp_plus. replace (a + - a) with 0 by ring. apply exp_0. }
  repeat match goal with
    | |- context [Rgt_dec ?c ?d] => destruct (Rgt_dec c d)
    | |- context [Rlt_dec ?c ?d] => destruct (Rlt_dec c d)
    end.
  - assert (Hpos : 0 < sinh a) by (apply sinh_pos; unfold a; lra).
    rewrite Rabs_right by lra.
    replace (b - a) with (b + - a) by ring.
    replace (- (Lambda * y)) with (- a + - a) by (unfold a; field).
    rewrite !exp_plus, Hs. field_simplify_eq; [| lra].
    replace (y * exp b * exp (- a) * exp a)
      with (y * exp b * (exp a * exp (- a))) by ring.
    rewrite Hinv. ring.
  - assert (Hneg : sinh a < 0) by (apply sinh_neg; unfold a; lra).
    rewrite Rabs_left by lra.
    replace (- - (Lambda * y)) with (a + a) by (unfold a; field).
    rewrite !exp_plus, Hs. field_simplify_eq; [| lra].
    replace (y * exp b * exp a * exp (- a))
      with (y * exp b * (exp a * exp (- a))) by ring.
    rewrite Hinv. ring.
  - exfalso. unfold Rabs in Hb. destruct (Rcase_abs (Lambda * y)); lra.
Qed.

Lemma bosonic_asymptotic_deficit_witness :
  bosonic_kernel 300 (1 / 2) (-1)
  = -1 * exp (- (300 / 2) * (1 / 2) * -1) / (2 * sinh ((300 / 2) * -1))
    * (1 - exp (- Rabs (300 * -1))) /\
  exp (- Rabs (300 * -1)) < exp (- 200).
Proof.
  apply bosonic_asymptotic_deficit.
  rewrite Rabs_left by lra. lra.
Defined.

End KernelSymmetry.

(** * The composite quadrature rule *)

Module QuadratureFacts.
Import Outcome Quadrature.

Lemma to_int_small (z : Z) : (0 <= z < 2 ^ 31)%Z -> to_int z = z.
Proof. intros H. unfold to_int. rewrite Z.mod_small; lia. Qed.

Lemma to_size_t_id (z : Z) : (0 <= z < 2 ^ 31)%Z -> to_size_t z = z.
Proof.
  intros H. unfold to_size_t, size_t_modulus. apply Z.mod_small. lia.
Qed.

Lemma assign_app {A : Type} (done rest : list A) (r x : A) :
  assign (done ++ r :: rest) (length done) x = done ++ x :: rest.
Proof.
  induction done as [| d done IH]; cbn; [reflexivity |].
  rewrite IH. reflexivity.
Qed.

(** A store at the first slot that is still to be filled. *)
Lemma store_next {A : Type} (done rest : list A) (r x : A) (i : Z) :
  i = Z.of_nat (length done) ->
  store (done ++ r :: rest) i x = Ok (done ++ x :: rest).
Proof.
  intros ->. unfold store, size. rewrite length_app. cbn [length].
  destruct (Z.ltb_spec (Z.of_nat (length done)) 0); [lia |].
  destruct (Z.leb_spec (Z.of_nat (length done + S (length rest)))
              (Z.of_nat (length done))); [lia |].
  cbn [orb]. rewrite Nat2Z.id, assign_app. reflexivity.
Qed.

Lemma nth_error_skipn_cons {A : Type} (l : list A) (i : nat) (a : A) :
  nth_error l i = Some a -> skipn i l = a :: skipn (S i) l.
Proof.
  revert i. induction l as [| h t IH]; intros [| i] H; cbn in *;
    try discriminate.
  - injection H as ->. reflexivity.
  - apply IH. exact H.
Qed.

Lemma nth_error_below {A : Type} (l : list A) (i : nat) :
  (i < length l)%nat -> exists a, nth_error l i = Some a.
Proof.
  intros H. destruct (nth_error l i) eqn:E; [eauto |].
  apply nth_error_None in E. lia.
Qed.

Lemma sections_short {A : Type} (l : list A) :
  (length l <= 1)%nat -> sections l = [].
Proof.
  destruct l as [| a [| b t]]; cbn; intros H; try reflexivity. lia.
Qed.

Lemma sections_skipn {A : Type} (l : list A) (s : nat) (a b : A) :
  nth_error l s = Some a -> nth_error l (S s) = Some b ->
  sections (skipn s l) = (a, b) :: sections (skipn (S s) l).
Proof.
  intros Ha Hb.
  rewrite (nth_error_skipn_cons l s a Ha).
  rewrite (nth_error_skipn_cons l (S s) b Hb). reflexivity.
Qed.

Lemma nth_error_sections {A : Type} (l : list A) :
  forall (s : nat) (a b : A),
    nth_error l s = Some a -> nth_error l (S s) = Some b ->
    nth_error (sections l) s = Some (a, b).
Proof.
  induction l as [| h t IH]; intros s a b Ha Hb; [destruct s; discriminate |].
  destruct t as [| h' t']; [destruct s; discriminate |].
  destruct s as [| s].
  - cbn in *. congruence.
  - change (nth_error (sections (h' :: t')) s = Some (a, b)).
    apply IH; assumption.
Qed.

Lemma length_sections {A : Type} (l : list A) :
  length (sections l) = (length l - 1)%nat.
Proof.
  induction l as [| h t IH]; [reflexivity |].
  destruct t as [| h' t']; [reflexivity |].
  change (S (length (sections (h' :: t'))) = (length (h :: h' :: t') - 1)%nat).
  rewrite IH. cbn [length]. lia.
Qed.

(** The slot [s * n + k] of [n]-element blocks laid end to end. *)
Lemma nth_error_blocks {A B C : Type} (f : A -> B -> C) (row : list B) :
  forall (L : list A) (s k : nat) (x : A) (y : B),
    nth_error L s = Some x -> nth_error row k = Some y ->
    nth_error (flat_map (fun x => map (f x) row) L) (s * length row + k)
    = Some (f x y).
Proof.
  induction L as [| h t IH]; intros s k x y Hs Hk; [destruct s; discriminate |].
  assert (Hlt : (k < length row)%nat) by (apply nth_error_Some; congruence).
  destruct s as [| s]; cbn [flat_map].
  - cbn in Hs. injection Hs as ->. cbn [Nat.mul Nat.add].
    rewrite nth_error_app1 by (rewrite length_map; exact Hlt).
    rewrite nth_error_map, Hk. reflexivity.
  - cbn in Hs. rewrite nth_error_app2 by (rewrite length_map; cbn; lia).
    rewrite length_map.
    replace (S s * length row + k - length row)%nat
      with (s * length row + k)%nat by (cbn; lia).
    apply IH; assumption.
Qed.

Lemma length_blocks {A B C : Type} (f : A -> B -> C) (row : list B)
    (L : list A) :
  length (flat_map (fun x => map (f x) row) L) = (length L * length row)%nat.
Proof.
  induction L as [| h t IH]; [reflexivity |].
  cbn [flat_map]. rewrite length_app, length_map, IH. cbn. lia.
Qed.

Section CompositeFacts.

Context {mp_type : Type} {AR : Arithmetic mp_type}.

(** The inner loop fills the next slots with the placed local rule and
    leaves the rest as it was. *)
Lemma local_loop_spec (s : nat) (N : Z) (a b : mp_type)
    (nodes : list (@node mp_type)) :
  forall (k n : nat) (done rest : list (@node mp_type)),
    (n + k = length nodes)%nat ->
    Z.of_nat (length done) = (Z.of_nat s * N + Z.of_nat n)%Z ->
    (k <= length rest)%nat ->
    local_loop k n s N a b nodes (done ++ rest)
    = Ok (done ++ map (place a b) (skipn n nodes) ++ skipn k rest).
Proof.
  induction k as [| k IH]; intros n done rest Hn Hdone Hrest.
  - rewrite skipn_all2 by lia. reflexivity.
  - destruct rest as [| r rest]; [cbn in Hrest; lia |].
    destruct (nth_error_below nodes n ltac:(lia)) as [nd Hnd].
    cbn [local_loop]. unfold at_. rewrite Hnd. cbn [bind].
    rewrite (store_next done rest r) by lia. cbn [bind].
    replace (done ++ place a b nd :: rest)
      with ((done ++ [place a b nd]) ++ rest)
      by (rewrite <- app_assoc; reflexivity).
    rewrite IH.
    + rewrite (nth_error_skipn_cons nodes n nd Hnd).
      cbn [map skipn]. rewrite <- app_assoc. reflexivity.
    + lia.
    + rewrite length_app. cbn [length]. lia.
    + cbn in Hrest. lia.
Qed.

(** The outer loop fills one block for each section. *)
Lemma section_loop_spec (edges : list mp_type)
    (nodes : list (@node mp_type)) :
  forall (k s : nat) (done rest : list (@node mp_type)),
    (s + k + 1 = length edges)%nat ->
    length done = (s * length nodes)%nat ->
    length rest = (k * length nodes)%nat ->
    section_loop k s (Z.of_nat (length nodes)) edges nodes (done ++ rest)
    = Ok (done ++ flat_map (fun ab => map (place (fst ab) (snd ab)) nodes)
                           (sections (skipn s edges))).
Proof.
  induction k as [| k IH]; intros s done rest Hs Hdone Hrest.
  - rewrite sections_short by (rewrite length_skipn; lia).
    destruct rest; [reflexivity | discriminate].
  - destruct (nth_error_below edges s ltac:(lia)) as [a Ha].
    destruct (nth_error_below edges (S s) ltac:(lia)) as [b Hb].
    cbn [section_loop]. unfold at_. rewrite Ha, Hb. cbn [bind].
    rewrite Nat2Z.id.
    rewrite (local_loop_spec s (Z.of_nat (length nodes)) a b nodes
               (length nodes) 0 done rest); [| lia | nia | nia].
    cbn [bind skipn]. rewrite app_assoc.
    rewrite IH.
    + rewrite (sections_skipn edges s a b Ha Hb). cbn [flat_map fst snd].
      rewrite <- app_assoc. reflexivity.
    + lia.
    + rewrite length_app, length_map. cbn. lia.
    + rewrite length_skipn, Hrest. cbn. lia.
Qed.

Variable max_size : Z.

(** With at least one edge, and sizes that fit, the function returns the
    local rule placed on every section. *)
Lemma composite_value (edges : list mp_type) (nodes : list (@node mp_type)) :
  edges <> [] ->
  (size edges <= 2 ^ 31)%Z -> (size nodes < 2 ^ 31)%Z ->
  ((size edges - 1) * size nodes < 2 ^ 31)%Z ->
  ((size edges - 1) * size nodes <= max_size)%Z ->
  composite_gauss_legendre_nodes max_size edges nodes
  = Allocated (Ok (placed_on_sections edges nodes)).
Proof.
  intros Hne He Hn Hprod Hmax.
  assert (Hlen : (1 <= length edges)%nat).
  { destruct edges; [congruence | cbn; lia]. }
  unfold composite_gauss_legendre_nodes, size in *.
  rewrite (to_size_t_id (Z.of_nat (length edges) - 1)) by lia.
  rewrite (to_int_small (Z.of_nat (length edges) - 1)) by lia.
  rewrite (to_int_small (Z.of_nat (length nodes))) by lia.
  rewrite to_size_t_id by nia.
  unfold new_vector.
  destruct (Z.ltb_spec max_size
              ((Z.of_nat (length edges) - 1) * Z.of_nat (length nodes)));
    [lia |].
  f_equal.
  rewrite <- (app_nil_l (repeat _ _)).
  rewrite section_loop_spec.
  - reflexivity.
  - lia.
  - reflexivity.
  - rewrite repeat_length. nia.
Qed.

(** X6. For at least one edge, and sizes whose product is an [int] and
    within [max_size()], [composite_gauss_legendre_nodes] returns without
    reading or writing out of bounds, and every slot of the result is
    written: slot [s * num_local_nodes + n] holds local node [n] placed on
    section [s], so that the result is the local rule placed on each
    section in turn, [(size - 1) * num_local_nodes] nodes in all. *)
Theorem composite_rule_structure (edges : list mp_type)
    (nodes : list (@node mp_type)) :
  edges <> [] ->
  (size edges <= 2 ^ 31)%Z -> (size nodes < 2 ^ 31)%Z ->
  ((size edges - 1) * size nodes < 2 ^ 31)%Z ->
  ((size edges - 1) * size nodes <= max_size)%Z ->
  exists all_nodes,
    composite_gauss_legendre_nodes max_size edges nodes
    = Allocated (Ok all_nodes) /\
    all_nodes = placed_on_sections edges nodes /\
    length all_nodes = ((length edges - 1) * length nodes)%nat /\
    forall (s n : nat) (a b : mp_type) (nd : @node mp_type),
      nth_error edges s = Some a -> nth_error edges (S s) = Some b ->
      nth_error nodes n = Some nd ->
      nth_error all_nodes (s * length nodes + n) = Some (place a b nd).
Proof.
  intros Hne He Hn Hprod Hmax.
  exists (placed_on_sections edges nodes).
  split; [apply composite_value; assumption |].
  split; [reflexivity |].
  unfold placed_on_sections. split.
  - rewrite length_blocks with (f := fun ab => place (fst ab) (snd ab)).
    rewrite length_sections. reflexivity.
  - intros s n a b nd Ha Hb Hnd.
    rewrite nth_error_blocks
      with (f := fun ab => place (fst ab) (snd ab)) (x := (a, b)) (y := nd).
    + reflexivity.
    + apply nth_error_sections; assumption.
    + exact Hnd.
Qed.

(** X7. Without edges the number of sections is [size_t(0) - 1] stored in
    an [int], that is -1: with no local nodes either the result is empty,
    and with local nodes the size of the result wraps to more than
    [max_size()] and the constructor of the vector raises
    [std::length_error]. *)
Theorem composite_rule_without_edges (nodes : list (@node mp_type)) :
  (0 <= max_size < 2 ^ 63)%Z -> (size nodes < 2 ^ 31)%Z ->
  composite_gauss_legendre_nodes max_size [] nodes
  = match nodes with
    | [] => Allocated (Ok [])
    | _ :: _ => LengthError
    end.
Proof.
  intros Hmax Hn. unfold composite_gauss_legendre_nodes.
  change (to_int (to_size_t (size (@nil mp_type) - 1))) with (-1)%Z.
  unfold size in *. rewrite (to_int_small (Z.of_nat (length nodes))) by lia.
  unfold new_vector, to_size_t, size_t_modulus.
  destruct nodes as [| nd nodes].
  - cbn [length Z.of_nat]. change ((-1 * 0) mod 2 ^ 64)%Z with 0%Z.
    destruct (Z.ltb_spec max_size 0); [lia | reflexivity].
  - assert (Hwrap : ((-1 * Z.of_nat (length (nd :: nodes))) mod 2 ^ 64
                     = 2 ^ 64 - Z.of_nat (length (nd :: nodes)))%Z).
    { symmetry. apply Z.mod_unique with (q := (-1)%Z); cbn [length] in *; lia. }
    rewrite Hwrap.
    destruct (Z.ltb_spec max_size
                (2 ^ 64 - Z.of_nat (length (nd :: nodes)))); [reflexivity |].
    cbn [length] in *. lia.
Qed.

End CompositeFacts.

Local Open Scope Q_scope.

Lemma total_weight_cons (nd : Q * Q) (rule : list (Q * Q)) :
  total_weight (nd :: rule) = snd nd + total_weight rule.
Proof. reflexivity. Qed.

Lemma total_weight_app (r1 r2 : list (Q * Q)) :
  total_weight (r1 ++ r2) == total_weight r1 + total_weight r2.
Proof.
  induction r1 as [| nd r1 IH].
  - cbn [app]. change (total_weight []) with 0. ring.
  - cbn [app]. rewrite !total_weight_cons, IH. ring.
Qed.

Lemma total_weight_place (a b : Q) (nodes : list (Q * Q)) :
  total_weight (map (place a b) nodes)
  == (b - a) / inject_Z 2 * total_weight nodes.
Proof.
  induction nodes as [| nd nodes IH].
  - cbn [map]. change (total_weight []) with 0. ring.
  - cbn [map]. rewrite !total_weight_cons, IH.
    change (snd (place a b nd)) with ((b - a) / inject_Z 2 * snd nd). ring.
Qed.

(** The lengths of the sections add up to the distance from the first
    edge to the last. *)
Lemma total_weight_sections (nodes : list (Q * Q)) :
  forall edges : list Q,
    total_weight (placed_on_sections edges nodes)
    == (last edges 0 - hd 0 edges) / inject_Z 2 * total_weight nodes.
Proof.
  induction edges as [| a rest IH].
  - cbn. change (inject_Z 2) with 2. field.
  - destruct rest as [| b rest].
    + cbn. change (inject_Z 2) with 2. field.
    + change (placed_on_sections (a :: b :: rest) nodes)
        with (map (place a b) nodes ++ placed_on_sections (b :: rest) nodes).
      rewrite total_weight_app, total_weight_place, IH.
      change (last (a :: b :: rest) 0) with (last (b :: rest) 0).
      cbn [hd]. change (inject_Z 2) with 2. field.
Qed.

Lemma ascending_tail (a : Q) (edges : list Q) :
  ascending (a :: edges) -> ascending edges.
Proof.
  unfold ascending. destruct edges as [| b rest]; [constructor |].
  intros H. inversion H. assumption.
Qed.

Lemma ascending_hd_last (edges : list Q) :
  ascending edges -> hd 0 edges <= last edges 0.
Proof.
  induction edges as [| a rest IH]; intros H; [cbn; Lqa.lra |].
  destruct rest as [| b rest]; [cbn; Lqa.lra |].
  pose proof (IH (ascending_tail _ _ H)) as Hrest.
  unfold ascending in H. inversion H as [| ? ? Hab _]. cbn in Hab.
  change (last (a :: b :: rest) 0) with (last (b :: rest) 0).
  cbn [hd] in *. Lqa.lra.
Qed.

(** A node of [-1,1] is placed inside the section, a weight keeps its
    sign. *)
Lemma place_inside (a b : Q) (nd : Q * Q) :
  a <= b -> -1 <= fst nd <= 1 -> 0 <= snd nd ->
  a <= fst (place a b nd) <= b /\ 0 <= snd (place a b nd).
Proof.
  intros Hab Hx Hw. destruct nd as [x w]. cbn in *.
  change (inject_Z 2) with 2. change (inject_Z 1) with 1.
  assert (Ex : a + (b - a) / 2 * (x + 1) == a + (b - a) * ((x + 1) * (1 # 2)))
    by field.
  assert (Ew : (b - a) / 2 * w == (b - a) * (w * (1 # 2))) by field.
  rewrite Ex, Ew. repeat split; Lqa.nra.
Qed.

Lemma placed_inside (nodes : list (Q * Q)) :
  Forall (fun nd => -1 <= fst nd <= 1 /\ 0 <= snd nd) nodes ->
  forall edges : list Q,
    ascending edges ->
    Forall (fun nd => hd 0 edges <= fst nd <= last edges 0 /\ 0 <= snd nd)
           (placed_on_sections edges nodes).
Proof.
  intros Hnodes. induction edges as [| a rest IH]; intros Hasc; [constructor |].
  destruct rest as [| b rest]; [constructor |].
  change (placed_on_sections (a :: b :: rest) nodes)
    with (map (place a b) nodes ++ placed_on_sections (b :: rest) nodes).
  pose proof (ascending_tail _ _ Hasc) as Htail.
  pose proof (ascending_hd_last _ Htail) as Hlast.
  assert (Hab : a <= b).
  { unfold ascending in Hasc. inversion Hasc as [| ? ? H _]. exact H. }
  change (last (a :: b :: rest) 0) with (last (b :: rest) 0).
  cbn [hd] in *.
  apply Forall_app. split.
  - apply Forall_map. eapply Forall_impl; [| exact Hnodes].
    intros nd [Hx Hw]. destruct (place_inside a b nd Hab Hx Hw) as [Hin Hpos].
    split; [Lqa.lra | exact Hpos].
  - eapply Forall_impl; [| exact (IH Htail)].
    intros nd [Hx Hw]. split; [Lqa.lra | exact Hw].
Qed.

(** X8. In exact arithmetic the weights of the composite rule add up to
    half the sum of the local weights times the distance from the first
    edge to the last: with local weights that add up to 2, the length of
    [-1,1], the composite weights add up to the length of the interval the
    edges span. *)
Theorem composite_weights_add_up (max_size : Z) (edges : list Q)
    (nodes all_nodes : list (Q * Q)) :
  edges <> [] ->
  (size edges <= 2 ^ 31)%Z -> (size nodes < 2 ^ 31)%Z ->
  ((size edges - 1) * size nodes < 2 ^ 31)%Z ->
  ((size edges - 1) * size nodes <= max_size)%Z ->
  composite_gauss_legendre_nodes max_size edges nodes
  = Allocated (Ok all_nodes) ->
  total_weight all_nodes
  == (last edges 0 - hd 0 edges) / inject_Z 2 * total_weight nodes /\
  (total_weight nodes == 2 ->
   total_weight all_nodes == last edges 0 - hd 0 edges).
Proof.
  intros Hne He Hn Hprod Hmax Hrun.
  rewrite composite_value in Hrun by assumption.
  injection Hrun as <-.
  pose proof (total_weight_sections nodes edges) as Hsum.
  split; [exact Hsum |].
  intros Htwo. rewrite Hsum, Htwo. change (inject_Z 2) with 2. field.
Qed.

(** X9. In exact arithmetic, with edges that do not decrease, local nodes
    in [-1,1] and local weights that are not negative, every node of the
    composite rule lies between the first edge and the last, and no weight
    is negative. *)
Theorem composite_nodes_inside (max_size : Z) (edges : list Q)
    (nodes all_nodes : list (Q * Q)) :
  edges <> [] ->
  (size edges <= 2 ^ 31)%Z -> (size nodes < 2 ^ 31)%Z ->
  ((size edges - 1) * size nodes < 2 ^ 31)%Z ->
  ((size edges - 1) * size nodes <= max_size)%Z ->
  ascending edges ->
  Forall (fun nd => -1 <= fst nd <= 1 /\ 0 <= snd nd) nodes ->
  composite_gauss_legendre_nodes max_size edges nodes
  = Allocated (Ok all_nodes) ->
  Forall (fun nd => hd 0 edges <= fst nd <= last edges 0 /\ 0 <= snd nd)
         all_nodes.
Proof.
  intros Hne He Hn Hprod Hmax Hasc Hnodes Hrun.
  rewrite composite_value in Hrun by assumption.
  injection Hrun as <-.
  apply placed_inside; assumption.
Qed.

(** A two-point rule on the sections [0, 1/2] and [1/2, 1]. *)
Lemma composite_rule_structure_witness :
  exists all_nodes,
    composite_gauss_legendre_nodes (2 ^ 57) [0; 1 # 2; 1]
      [(- (1 # 2), 1); (1 # 2, 1)]
    = Allocated (Ok all_nodes) /\
    all_nodes = placed_on_sections [0; 1 # 2; 1] [(- (1 # 2), 1); (1 # 2, 1)] /\
    length all_nodes = 4%nat /\
    forall (s n : nat) (a b : Q) (nd : Q * Q),
      nth_error [0; 1 # 2; 1] s = Some a ->
      nth_error [0; 1 # 2; 1] (S s) = Some b ->
      nth_error [(- (1 # 2), 1); (1 # 2, 1)] n = Some nd ->
      nth_error all_nodes (s * 2 + n) = Some (place a b nd).
Proof.
  apply (composite_rule_structure (2 ^ 57) [0; 1 # 2; 1]
           [(- (1 # 2), 1); (1 # 2, 1)]);
    [discriminate | cbn; lia ..].
Defined.

Lemma composite_rule_without_edges_witness :
  composite_gauss_legendre_nodes (2 ^ 57) [] [(0, 2)] = LengthError.
Proof.
  apply (composite_rule_without_edges (2 ^ 57) [(0, 2)]); cbn; lia.
Defined.

Lemma composite_weights_add_up_witness :
  total_weight (placed_on_sections [0; 1 # 2; 1] [(- (1 # 2), 1); (1 # 2, 1)])
  == (last [0; 1 # 2; 1] 0 - hd 0 [0; 1 # 2; 1]) / inject_Z 2
     * total_weight [(- (1 # 2), 1); (1 # 2, 1)] /\
  (total_weight [(- (1 # 2), 1); (1 # 2, 1)] == 2 ->
   total_weight
     (placed_on_sections [0; 1 # 2; 1] [(- (1 # 2), 1); (1 # 2, 1)])
   == last [0; 1 # 2; 1] 0 - hd 0 [0; 1 # 2; 1]).
Proof.
  apply (composite_weights_add_up (2 ^ 57) [0; 1 # 2; 1]
           [(- (1 # 2), 1); (1 # 2, 1)]);
    [discriminate | cbn; lia | cbn; lia | cbn; lia | cbn; lia |].
  vm_compute. reflexivity.
Defined.

Lemma composite_nodes_inside_witness :
  Forall (fun nd => hd 0 [0; 1 # 2; 1] <= fst nd <= last [0; 1 # 2; 1] 0
                    /\ 0 <= snd nd)
    (placed_on_sections [0; 1 # 2; 1] [(- (1 # 2), 1); (1 # 2, 1)]).
Proof.
  apply (composite_nodes_inside (2 ^ 57) [0; 1 # 2; 1]
           [(- (1 # 2), 1); (1 # 2, 1)]);
    [discriminate | cbn; lia | cbn; lia | cbn; lia | cbn; lia | | |].
  - repeat constructor; cbn; discriminate.
  - repeat constructor; cbn; discriminate.
  - vm_compute. reflexivity.
Defined.

End QuadratureFacts.

(** * Limits of the truncation *)

Module Cutoff.
Import Outcome Truncation TruncationFacts.
Local Open Scope Q_scope.

(** A value below a cutoff is below every larger cutoff. *)
Lemma mp_lt_mono (a : mpreal) (c c' : Q) :
  c' <= c -> mp_lt a c' = true -> mp_lt a c = true.
Proof.
  intros Hc. destruct a as [q | | |]; cbn; try (intros H; exact H).
  rewrite !Qlt_bool_iff. intros H. apply Qlt_le_trans with c'; assumption.
Qed.

Lemma mp_lt_kept_mono (a : mpreal) (c c' : Q) :
  c' <= c -> mp_lt a c = false -> mp_lt a c' = false.
Proof.
  intros Hc H. destruct (mp_lt a c') eqn:E; [| reflexivity].
  rewrite (mp_lt_mono a c c' Hc E) in H. discriminate.
Qed.

(** A smaller [max_dim] and a larger cutoff end the lock-step run earlier,
    and change nothing before. *)
Lemma lockstep_mono (m m' : Z) (c c' s0 : Q) :
  (m <= m')%Z -> c' <= c ->
  forall (even odd : list triple) (count : Z),
    (count <= m)%Z ->
    exists rest,
      lockstep count m' c' s0 even odd
      = lockstep count m c s0 even odd ++ rest.
Proof.
  intros Hm Hc. induction even as [| e even IH]; intros odd count Hcount.
  { exists []. reflexivity. }
  destruct odd as [| o odd]; [exists []; reflexivity |].
  cbn [lockstep]. unfold stops.
  destruct (Z.eqb_spec count m) as [-> | Hn1]; cbn [orb].
  { eexists. reflexivity. }
  destruct (mp_lt (mp_div (sigma e) s0) c) eqn:He.
  { eexists. reflexivity. }
  destruct (Z.eqb_spec count m') as [-> | _]; [lia |]. cbn [orb].
  rewrite (mp_lt_kept_mono _ c c' Hc He).
  destruct (Z.eqb_spec (count + 1) m) as [Heq | Hn2]; cbn [orb].
  { eexists. cbn [app]. reflexivity. }
  destruct (mp_lt (mp_div (sigma o) s0) c) eqn:Ho.
  { eexists. cbn [app]. reflexivity. }
  destruct (Z.eqb_spec (count + 1) m') as [Heq | _]; [lia |]. cbn [orb].
  rewrite (mp_lt_kept_mono _ c c' Hc Ho).
  destruct (IH odd (count + 2)%Z ltac:(lia)) as [rest Hrest].
  exists rest. rewrite Hrest. reflexivity.
Qed.

(** X10. With the same two decompositions, a run with a smaller
    [max_dim] or a larger cutoff keeps a prefix of what the other run
    keeps: the singular values and the vectors it returns are the first
    ones of the longer run, unchanged. *)
Theorem fewer_functions_are_a_prefix (to_double : Q -> Q)
    (svd_even svd_odd : BDCSVD) (m m' : Z) (c c' : Q) :
  square svd_even -> square svd_odd ->
  length (singularValues svd_odd) = length (singularValues svd_even) ->
  singularValues svd_even <> [] ->
  (0 <= m <= m')%Z -> is_int m' -> c' <= c ->
  exists p p' more_sv more_U more_V,
    pick to_double svd_even svd_odd m c = Ok p /\
    pick to_double svd_even svd_odd m' c' = Ok p' /\
    sv p' = sv p ++ more_sv /\
    Uvec p' = Uvec p ++ more_U /\
    Vvec p' = Vvec p ++ more_V.
Proof.
  intros He Ho Hlen Hne Hm Hint Hc.
  destruct (pick_spec to_double svd_even svd_odd m c He Ho Hlen Hne)
    as (p & Hrun & Hsv & HU & HV).
  destruct (pick_spec to_double svd_even svd_odd m' c' He Ho Hlen Hne)
    as (p' & Hrun' & Hsv' & HU' & HV').
  cbn zeta in *.
  assert (Hmod : (2 ^ 31 < size_t_modulus)%Z) by reflexivity.
  unfold is_int in Hint.
  rewrite (to_size_t_small m) in * by lia.
  rewrite (to_size_t_small m') in * by lia.
  destruct (lockstep_mono m m' c c' (leading (triples svd_even))
              ltac:(lia) Hc (triples svd_even) (triples svd_odd) 0%Z
              ltac:(lia)) as [rest Hrest].
  rewrite Hrest in *.
  exists p, p'.
  exists (map (fun t => to_double (sigma t)) rest),
         (map (fun t => snd (fst t)) rest), (map (fun t => snd t) rest).
  rewrite Hsv', HU', HV', Hsv, HU, HV, !map_app.
  repeat split; assumption.
Qed.

(** Every candidate passes the cutoff test when the leading value is zero,
    or when the cutoff is not positive. *)
Lemma nonnegative_is_kept (s0 cutoff q : Q) :
  0 <= s0 -> 0 <= q -> s0 == 0 \/ cutoff <= 0 -> kept s0 cutoff q.
Proof.
  intros Hs0 Hq Hcase. unfold kept, mp_div.
  destruct (Qeq_bool s0 0) eqn:Ez.
  - destruct (Qcompare_spec q 0) as [_ | Hlt | _]; try reflexivity.
    exfalso. apply (Qlt_not_le _ _ Hlt). exact Hq.
  - apply Qeq_bool_neq in Ez.
    destruct Hcase as [Hz | Hcut]; [contradiction |].
    cbn [mp_lt]. apply Qlt_bool_false.
    assert (Hpos : 0 < s0) by (apply Qle_lt_or_eq in Hs0;
      destruct Hs0 as [H | H]; [exact H | symmetry in H; contradiction]).
    apply Qle_trans with 0; [exact Hcut |].
    apply Qle_shift_div_l; [exact Hpos |]. rewrite Qmult_0_l. exact Hq.
Qed.

(** X11. The cutoff removes nothing when it is not positive, and nothing
    when the leading singular value is zero (every quotient is then an
    infinity or a NaN, and no comparison with the cutoff holds): of
    singular values that are not negative the run keeps the first
    [max_dim] candidates of the merged order, and all of them when
    [max_dim] is negative. *)
Theorem cutoff_never_applies (to_double : Q -> Q)
    (svd_even svd_odd : BDCSVD) (max_dim : Z) (cutoff s0 : Q) (tl : list Q) :
  well_formed svd_even svd_odd ->
  singularValues svd_even = s0 :: tl ->
  is_int max_dim ->
  (forall q, In q (singularValues svd_even ++ singularValues svd_odd) ->
             0 <= q) ->
  s0 == 0 \/ cutoff <= 0 ->
  exists p,
    pick to_double svd_even svd_odd max_dim cutoff = Ok p /\
    sv p
    = map to_double
        (if (max_dim <? 0)%Z
         then interleave (singularValues svd_even) (singularValues svd_odd)
         else firstn (Z.to_nat max_dim)
                (interleave (singularValues svd_even)
                            (singularValues svd_odd))).
Proof.
  intros Hwf Hd Hint Hnonneg Hcase.
  destruct (pick_values to_double svd_even svd_odd max_dim cutoff s0 tl
              Hwf Hd Hint)
    as (p & sigmas & rest & Hrun & Hsplit & Hsv & _ & Hcap & Hnext).
  exists p. split; [exact Hrun |]. rewrite Hsv. f_equal.
  assert (Hs0 : 0 <= s0).
  { apply Hnonneg. rewrite Hd. left. reflexivity. }
  assert (Hstop : rest = [] \/ size sigmas = max_dim).
  { destruct rest as [| x rest]; [left; reflexivity | right].
    destruct Hnext as [Hn | Hn]; [exact Hn |].
    assert (Hx : 0 <= x).
    { apply Hnonneg. apply in_interleave. rewrite Hsplit.
      apply in_or_app. right. left. reflexivity. }
    pose proof (nonnegative_is_kept s0 cutoff x Hs0 Hx Hcase) as Hk.
    unfold kept in Hk. rewrite Hk in Hn. discriminate. }
  rewrite Hsplit.
  destruct (Z.ltb_spec max_dim 0) as [Hneg | Hpos].
  - destruct Hstop as [-> | Hfull].
    + rewrite app_nil_r. reflexivity.
    + pose proof (size_nonneg sigmas). lia.
  - destruct Hstop as [-> | Hfull].
    + rewrite app_nil_r. symmetry. apply firstn_all2.
      specialize (Hcap Hpos). unfold size in Hcap. lia.
    + unfold size in Hfull. rewrite <- Hfull, Nat2Z.id.
      rewrite firstn_app, firstn_all, Nat.sub_diag. cbn [firstn].
      rewrite app_nil_r. reflexivity.
Qed.

Lemma fewer_functions_are_a_prefix_witness :
  exists p p' more_sv more_U more_V,
    pick (fun q => q) Model.even_2 Model.odd_2 1 (3 # 5) = Ok p /\
    pick (fun q => q) Model.even_2 Model.odd_2 3 (1 # 10) = Ok p' /\
    sv p' = sv p ++ more_sv /\
    Uvec p' = Uvec p ++ more_U /\
    Vvec p' = Vvec p ++ more_V.
Proof.
  apply (fewer_functions_are_a_prefix (fun q => q) Model.even_2 Model.odd_2
           1 3 (3 # 5) (1 # 10)).
  - split; reflexivity.
  - split; reflexivity.
  - reflexivity.
  - discriminate.
  - lia.
  - unfold is_int. lia.
  - discriminate.
Defined.

Lemma cutoff_never_applies_witness :
  exists p,
    pick (fun q => q) Model.zero_1 Model.zero_1 5 (1 # 10) = Ok p /\
    sv p
    = map (fun q => q)
        (if (5 <? 0)%Z
         then interleave (singularValues Model.zero_1)
                (singularValues Model.zero_1)
         else firstn (Z.to_nat 5)
                (interleave (singularValues Model.zero_1)
                            (singularValues Model.zero_1))).
Proof.
  apply (cutoff_never_applies (fun q => q) Model.zero_1 Model.zero_1 5
           (1 # 10) 0 []).
  - repeat split; cbn; lia.
  - reflexivity.
  - unfold is_int. lia.
  - intros q [<- | [<- | []]]; discriminate.
  - left. reflexivity.
Defined.

End Cutoff.

(** * The assertions of [gen_pp] and the sign loop *)

Module Polynomials.
Import Outcome Truncation Basis Functional TruncationFacts BasisFacts.
Local Open Scope Q_scope.




Section GenPP.

Context {pp : Type} {PP : PiecewisePolynomial pp} {E : Externals pp}.






(** Where no function is negative at 1, the sign loop changes nothing. *)
Lemma fix_signs_fixed :
  forall (n i : nat) (u v : list pp),
    (n + i = length u)%nat ->
    (forall j uj, (i <= j)%nat -> nth_error u j = Some uj ->
                  flipped uj = false) ->
    fix_signs n i u v = Ok (u, v).
Proof.
  induction n as [| n IH]; intros i u v Hlen Hpos; [reflexivity |].
  destruct (nth_error_in_range u i ltac:(lia)) as [ui Hui].
  cbn [fix_signs]. rewrite (at_some u i ui Hui). cbn [bind].
  rewrite (Hpos i ui (le_n i) Hui).
  apply IH; [lia |].
  intros j uj Hj. apply Hpos. lia.
Qed.

Lemma not_flipped_after (ul : pp) :
  scale_scales_values -> flipped (with_sign (flipped ul) ul) = false.
Proof.
  intros Hlaw. unfold flipped at 1. apply Qlt_bool_false.
  apply with_sign_endpoint. exact Hlaw.
Qed.

(** X14. The sign loop does not change a product [u_l(x) * v_l(y)]: it
    flips both functions of an index or neither, so the expansion of the
    kernel in the basis is the same before and after. *)
Theorem sign_flips_keep_products (u v u' v' : list pp) :
  scale_scales_values -> length v = length u ->
  fix_signs (length u) 0 u v = Ok (u', v') ->
  forall (l : nat) (ul vl : pp),
    nth_error u l = Some ul -> nth_error v l = Some vl ->
    exists ul' vl',
      nth_error u' l = Some ul' /\ nth_error v' l = Some vl' /\
      forall x y : Q,
        compute_value ul' x * compute_value vl' y
        == compute_value ul x * compute_value vl y.
Proof.
  intros Hlaw Hlen Hrun l ul vl Hul Hvl.
  destruct (fix_signs_spec (length u) 0 u v Hlen ltac:(lia))
    as (u1 & v1 & Hrun1 & _ & _ & Hat).
  rewrite Hrun in Hrun1. injection Hrun1 as <- <-.
  destruct (Hat l) as [_ Hl].
  destruct (Hl (Nat.le_0_l l) ul vl Hul Hvl) as [Hu' Hv'].
  exists (with_sign (flipped ul) ul), (with_sign (flipped ul) vl).
  split; [exact Hu' |]. split; [exact Hv' |].
  intros x y. unfold with_sign. destruct (flipped ul); [| reflexivity].
  rewrite (Hlaw (-1) ul x), (Hlaw (-1) vl y). ring.
Qed.

(** X15. The sign loop is idempotent: after it no function [u_l] is
    negative at 1, and a second pass over its result changes nothing. *)
Theorem sign_flips_are_idempotent (u v u' v' : list pp) :
  scale_scales_values -> length v = length u ->
  fix_signs (length u) 0 u v = Ok (u', v') ->
  fix_signs (length u') 0 u' v' = Ok (u', v').
Proof.
  intros Hlaw Hlen Hrun.
  destruct (fix_signs_spec (length u) 0 u v Hlen ltac:(lia))
    as (u1 & v1 & Hrun1 & Hlu & _ & Hat).
  rewrite Hrun in Hrun1. injection Hrun1 as <- <-.
  apply fix_signs_fixed; [lia |].
  intros j uj' _ Huj'.
  assert (Hj : (j < length u)%nat).
  { rewrite <- Hlu. apply nth_error_Some. congruence. }
  destruct (nth_error_in_range u j Hj) as [uj Huj].
  destruct (nth_error_in_range v j ltac:(lia)) as [vj Hvj].
  destruct (Hat j) as [_ Hl].
  destruct (Hl (Nat.le_0_l j) uj vj Huj Hvj) as [Hu' _].
  rewrite Hu' in Huj'. injection Huj' as <-.
  apply not_flipped_after. exact Hlaw.
Qed.



End GenPP.

End Polynomials.

(** * The facade on a constructed basis *)

Module Facade.
Import Outcome Truncation Basis Accessors TruncationFacts BasisFacts.
Local Open Scope Q_scope.

Lemma at_int_outside {A : Type} (v : list A) (l : Z) :
  (l < 0 \/ size v <= l)%Z -> at_int v l = OutOfBounds.
Proof.
  intros Hl. unfold at_int, at_, size in *.
  destruct (Z.ltb_spec l 0); [reflexivity |].
  destruct (nth_error v (Z.to_nat l)) eqn:E; [| reflexivity].
  assert (Z.to_nat l < length v)%nat by (apply nth_error_Some; congruence).
  lia.
Qed.

Lemma at_int_nth {A : Type} (v : list A) (l : Z) (a : A) :
  at_int v l = Ok a -> nth_error v (Z.to_nat l) = Some a.
Proof.
  unfold at_int, at_. destruct (l <? 0)%Z; [discriminate |].
  destruct (nth_error v (Z.to_nat l)); [| discriminate].
  intros H. injection H as ->. reflexivity.
Qed.

Section OnABasis.

Context {pp : Type} {PP : PiecewisePolynomial pp} {E : Externals pp}.

(** The two checks of [sl], [ul] and [vl] on an index out of range. *)
Lemma index_checks_refuse (b : ir_basis_set pp) (l : Z) (A : Type)
    (k : result A) :
  index_in_range b l = false ->
  (_ <- assert_ assertions (index_in_range b l) ;;
   _ <- python_runtime_check python_checks (index_in_range b l)
          "Index l is out of range." ;;
   k)
  = if assertions then Aborted
    else if python_checks then Throw "Index l is out of range."
    else k.
Proof.
  intros ->. unfold assert_, python_runtime_check.
  destruct assertions, python_checks; reflexivity.
Qed.

Lemma index_checks_accept (b : ir_basis_set pp) (l : Z) (A : Type)
    (k : result A) :
  index_in_range b l = true ->
  (_ <- assert_ assertions (index_in_range b l) ;;
   _ <- python_runtime_check python_checks (index_in_range b l)
          "Index l is out of range." ;;
   k)
  = k.
Proof.
  intros ->. unfold assert_, python_runtime_check.
  rewrite !andb_false_r. reflexivity.
Qed.

(** X16. [sl], [ul] and [vl] have no check of their own on the index: on
    an index out of range they end the process where assertions are
    compiled in, raise "Index l is out of range." where only the Python
    checks are, and read past the end of the vector where neither is;
    unlike [ulx] and [vly], they never raise in a plain release build. *)
Theorem accessors_have_no_own_check (b : ir_basis_set pp) (l : Z) :
  (l < 0 \/ dim b <= l)%Z ->
  length (sv_ b) = length (u_basis_ b) ->
  length (v_basis_ b) = length (u_basis_ b) ->
  sl b l = (if assertions then Aborted
            else if python_checks then Throw "Index l is out of range."
            else OutOfBounds) /\
  ul b l = (if assertions then Aborted
            else if python_checks then Throw "Index l is out of range."
            else OutOfBounds) /\
  vl b l = (if assertions then Aborted
            else if python_checks then Throw "Index l is out of range."
            else OutOfBounds).
Proof.
  intros Hl Hs Hv.
  destruct (index_in_range_false b l Hl) as [Hout _].
  unfold sl, ul, vl. rewrite !index_checks_refuse by exact Hout.
  unfold dim, size in Hl.
  rewrite !at_int_outside by (unfold size; lia).
  repeat split.
Qed.

(** X17. On an index in range and an argument in [-1,1] no function of
    the facade fails, in any build: [sl], [ul] and [vl] return the stored
    entries, and [ulx] and [vly] are [ul] and [vl] evaluated at [x] where
    [x >= 0], and at [-x] with the sign [l%2==0 ? 1 : -1] where [x < 0]. *)
Theorem facade_accepts_valid_arguments (b : ir_basis_set pp) (l : Z) :
  (0 <= l < dim b)%Z ->
  length (sv_ b) = length (u_basis_ b) ->
  length (v_basis_ b) = length (u_basis_ b) ->
  exists (s : Q) (f g : pp),
    sl b l = Ok s /\ ul b l = Ok f /\ vl b l = Ok g /\
    nth_error (sv_ b) (Z.to_nat l) = Some s /\
    nth_error (u_basis_ b) (Z.to_nat l) = Some f /\
    nth_error (v_basis_ b) (Z.to_nat l) = Some g /\
    forall x : Q,
      -1 <= x <= 1 ->
      ulx b l x
      = Ok (if Qle_bool 0 x then compute_value f x
            else compute_value f (- x) * parity_sign l) /\
      vly b l x
      = Ok (if Qle_bool 0 x then compute_value g x
            else compute_value g (- x) * parity_sign l).
Proof.
  intros Hl Hs Hv.
  destruct (index_in_range_true b l Hl) as [Hin _].
  assert (Hdim : dim b = Z.of_nat (length (u_basis_ b))) by reflexivity.
  destruct (at_int_in_range (sv_ b) l) as [s Hsl]; [unfold size; lia |].
  destruct (at_int_in_range (u_basis_ b) l) as [f Hul]; [unfold size; lia |].
  destruct (at_int_in_range (v_basis_ b) l) as [g Hvl]; [unfold size; lia |].
  exists s, f, g. unfold sl, ul, vl.
  rewrite !index_checks_accept by exact Hin.
  split; [exact Hsl |]. split; [exact Hul |]. split; [exact Hvl |].
  split; [apply at_int_nth; exact Hsl |].
  split; [apply at_int_nth; exact Hul |].
  split; [apply at_int_nth; exact Hvl |].
  intros x Hx.
  rewrite (ulx_accepted b l x Hl Hx), (vly_accepted b l x Hl Hx).
  rewrite Hul, Hvl. cbn [bind].
  destruct (Qle_bool 0 x); split; reflexivity.
Qed.

Lemma constructed_statistics (knl : kernel) (max_dim : Z) (cutoff : Q)
    (Nl : Z) (b : ir_basis_set pp) :
  new_ir_basis_set knl max_dim cutoff Nl = Ok b ->
  statistics_ b = get_statistics knl.
Proof.
  unfold new_ir_basis_set. intros H.
  destruct (generate_ir_basis_functions knl max_dim cutoff Nl 12)
    as [[[s u] v] | | | |]; cbn [bind] in H; try discriminate H.
  cbn [fst snd u_basis_] in H.
  destruct (assert_ assertions (0 <? size u)%Z) as [[] | | | |];
    cbn [bind] in H; try discriminate H.
  match type of H with
  | bind ?c _ = _ => destruct c as [[] | | | |]
  end; cbn [bind] in H; try discriminate H.
  inversion H; subst. reflexivity.
Qed.

(** What the stored singular values of a constructed basis went through. *)
Lemma constructed_values (knl : kernel) (max_dim : Z) (cutoff : Q) (Nl : Z)
    (b : ir_basis_set pp) :
  new_ir_basis_set knl max_dim cutoff Nl = Ok b ->
  sv_ b <> [] /\
  (size (sv_ b) <= to_size_t max_dim)%Z /\
  check_decreasing (sv_ b) = Ok tt.
Proof.
  intros H.
  destruct (constructed_inv _ _ _ _ _ H) as (prec & ex & ey & Himpl).
  destruct (impl_ok_inv _ _ _ _ _ _ _ _ _ _ _ Himpl)
    as (p & u0 & v0 & Hpick & Hcheck & Hsv & _).
  rewrite Hsv. split; [| split].
  - intros Hnil. rewrite Hnil, check_decreasing_empty in Hcheck.
    discriminate.
  - apply Z.leb_le. eapply pick_size. exact Hpick.
  - exact Hcheck.
Qed.

(** X18. A basis that was constructed is never empty: an empty selection
    ends the construction in the read out of bounds of the check loop, so
    that the assertion [u_basis_.size()>0] of the constructor cannot fail.
    The three stored vectors have [dim()] entries, [dim()] is at most
    [max_dim] where that is not negative, [max_dim = 0] constructs nothing,
    and the statistics are those of the kernel. *)
Theorem constructed_basis_is_not_empty (knl : kernel) (max_dim : Z)
    (cutoff : Q) (Nl : Z) (b : ir_basis_set pp) :
  new_ir_basis_set knl max_dim cutoff Nl = Ok b ->
  (1 <= dim b)%Z /\
  size (sv_ b) = dim b /\ size (v_basis_ b) = dim b /\
  (dim b <= to_size_t max_dim)%Z /\
  ((0 <= max_dim < 2 ^ 31)%Z -> (dim b <= max_dim)%Z) /\
  max_dim <> 0%Z /\
  statistics_ b = get_statistics knl.
Proof.
  intros H.
  destruct (constructed_lengths _ _ _ _ _ H) as [Hu Hv].
  destruct (constructed_values _ _ _ _ _ H) as (Hne & Hcap & _).
  assert (Hpos : (1 <= size (sv_ b))%Z).
  { unfold size. destruct (sv_ b); [congruence | cbn [length]; lia]. }
  unfold dim, size in *. rewrite Hu, Hv.
  split; [exact Hpos |]. split; [reflexivity |]. split; [reflexivity |].
  split; [exact Hcap |].
  split.
  { intros Hm. rewrite to_size_t_small in Hcap; [exact Hcap |].
    unfold size_t_modulus. lia. }
  split.
  { intros ->. change (to_size_t 0) with 0%Z in Hcap. lia. }
  eapply constructed_statistics. exact H.
Qed.

(** X19. Through the facade the singular values of a constructed basis do
    not increase: [sl(l+1) <= sl(l)] for every pair of neighbouring
    indices. *)
Theorem stored_values_do_not_increase (knl : kernel) (max_dim : Z)
    (cutoff : Q) (Nl : Z) (b : ir_basis_set pp) (l : Z) :
  new_ir_basis_set knl max_dim cutoff Nl = Ok b ->
  (0 <= l)%Z -> (l + 1 < dim b)%Z ->
  exists a a' : Q, sl b l = Ok a /\ sl b (l + 1) = Ok a' /\ a' <= a.
Proof.
  intros H Hl Hl1.
  destruct (constructed_lengths _ _ _ _ _ H) as [Hu _].
  destruct (constructed_values _ _ _ _ _ H) as (Hne & Hcap & Hcheck).
  assert (Hbound : (size (sv_ b) <= size_t_modulus)%Z).
  { pose proof (Z.mod_pos_bound max_dim size_t_modulus ltac:(reflexivity)).
    unfold to_size_t in Hcap. lia. }
  rewrite (check_decreasing_nonempty _ Hne Hbound) in Hcheck.
  assert (Hsorted : non_increasing (sv_ b)).
  { unfold non_increasing. destruct (first_violation (sv_ b));
      [discriminate | reflexivity]. }
  assert (Hdim : dim b = Z.of_nat (length (sv_ b))).
  { unfold dim, size. rewrite Hu. reflexivity. }
  destruct (index_in_range_true b l ltac:(lia)) as [Hin _].
  destruct (index_in_range_true b (l + 1) ltac:(lia)) as [Hin1 _].
  destruct (at_int_in_range (sv_ b) l) as [a Ha]; [unfold size; lia |].
  destruct (at_int_in_range (sv_ b) (l + 1)) as [a' Ha'];
    [unfold size; lia |].
  exists a, a'. unfold sl.
  rewrite !index_checks_accept by assumption.
  split; [exact Ha |]. split; [exact Ha' |].
  apply at_int_nth in Ha. apply at_int_nth in Ha'.
  replace (Z.to_nat (l + 1)) with (S (Z.to_nat l)) in Ha' by lia.
  exact (non_increasing_nth _ Hsorted _ _ _ Ha Ha').
Qed.

(** X20. Through the facade the sign convention reads: on a constructed
    basis [ulx(l, 1)] is not negative for any index in range, and
    [ulx(l, -1)] is that value times [l%2==0 ? 1 : -1]. *)
Theorem endpoint_values_through_facade (knl : kernel) (max_dim : Z)
    (cutoff : Q) (Nl : Z) (b : ir_basis_set pp) (l : Z) :
  scale_scales_values ->
  new_ir_basis_set knl max_dim cutoff Nl = Ok b ->
  (0 <= l < dim b)%Z ->
  exists a : Q,
    ulx b l 1 = Ok a /\ 0 <= a /\ ulx b l (-1) = Ok (a * parity_sign l).
Proof.
  intros Hlaw H Hl.
  destruct (constructed_inv _ _ _ _ _ H) as (prec & ex & ey & Himpl).
  destruct (impl_ok_inv _ _ _ _ _ _ _ _ _ _ _ Himpl)
    as (p & u0 & v0 & Hpick & _ & _ & Hgu & Hgv & Hfix).
  destruct (pick_lengths _ _ _ _ _ _ Hpick) as [HU HV].
  pose proof (length_gen_pp _ _ _ _ _ Hgu) as Hlu.
  pose proof (length_gen_pp _ _ _ _ _ Hgv) as Hlv.
  destruct (fix_signs_spec (length u0) 0 u0 v0 ltac:(congruence) ltac:(lia))
    as (u1 & v1 & Hrun & Hlen1 & _ & Hat).
  rewrite Hfix in Hrun. injection Hrun as <- <-.
  assert (Hlt : (Z.to_nat l < length u0)%nat).
  { unfold dim, size in Hl. lia. }
  destruct (nth_error_in_range u0 (Z.to_nat l) Hlt) as [uj Huj].
  destruct (nth_error_in_range v0 (Z.to_nat l) ltac:(congruence))
    as [vj Hvj].
  destruct (Hat (Z.to_nat l)) as [_ Hj].
  destruct (Hj (Nat.le_0_l _) uj vj Huj Hvj) as [Hu' _].
  assert (Hread : at_int (u_basis_ b) l = Ok (with_sign (flipped uj) uj)).
  { unfold at_int. destruct (Z.ltb_spec l 0); [lia |].
    apply at_some. exact Hu'. }
  exists (compute_value (with_sign (flipped uj) uj) 1).
  rewrite (ulx_accepted b l 1 Hl) by (split; discriminate).
  rewrite (ulx_accepted b l (-1) Hl) by (split; discriminate).
  rewrite Hread. cbn [bind].
  split; [reflexivity |].
  split; [apply with_sign_endpoint; exact Hlaw | reflexivity].
Qed.

End OnABasis.

End Facade.

(** * The further properties on concrete runs *)

Module FurtherRuns.
Import Outcome Truncation Basis Accessors Model Stored.
Import TruncationFacts BasisFacts ModelFacts Polynomials Facade.
Local Open Scope Q_scope.


(** One pair of functions, the first of which is -1 at 1. *)
Lemma sign_flips_keep_products_witness :
  exists ul' vl',
    nth_error [segments_scale (-1) (step_function edges_2 1 [0; - 1])] 0
    = Some ul' /\
    nth_error [segments_scale (-1) (step_function edges_2 1 [0; 1])] 0
    = Some vl' /\
    forall x y : Q,
      compute_value ul' x * compute_value vl' y
      == compute_value (step_function edges_2 1 [0; - 1]) x
         * compute_value (step_function edges_2 1 [0; 1]) y.
Proof.
  apply (sign_flips_keep_products
           [step_function edges_2 1 [0; - 1]]
           [step_function edges_2 1 [0; 1]]
           [segments_scale (-1) (step_function edges_2 1 [0; - 1])]
           [segments_scale (-1) (step_function edges_2 1 [0; 1])]
           segments_scale_value).
  - reflexivity.
  - vm_compute. reflexivity.
  - reflexivity.
  - reflexivity.
Defined.

Lemma sign_flips_are_idempotent_witness :
  fix_signs 1 0
    [segments_scale (-1) (step_function edges_2 1 [0; - 1])]
    [segments_scale (-1) (step_function edges_2 1 [0; 1])]
  = Ok ([segments_scale (-1) (step_function edges_2 1 [0; - 1])],
        [segments_scale (-1) (step_function edges_2 1 [0; 1])]).
Proof.
  apply (sign_flips_are_idempotent
           [step_function edges_2 1 [0; - 1]]
           [step_function edges_2 1 [0; 1]]
           [segments_scale (-1) (step_function edges_2 1 [0; - 1])]
           [segments_scale (-1) (step_function edges_2 1 [0; 1])]
           segments_scale_value).
  - reflexivity.
  - vm_compute. reflexivity.
Defined.

(** A plain release build reads past the end. *)
Lemma accessors_have_no_own_check_witness :
  sl (E := release_1) one_function 1 = OutOfBounds /\
  ul (E := release_1) one_function 1 = OutOfBounds /\
  vl (E := release_1) one_function 1 = OutOfBounds.
Proof.
  apply (accessors_have_no_own_check (E := release_1) one_function 1).
  - right. cbn. lia.
  - reflexivity.
  - reflexivity.
Defined.

Lemma facade_accepts_valid_arguments_witness :
  exists (s : Q) (f g : piecewise_polynomial),
    sl (E := release_1) one_function 0 = Ok s /\
    ul (E := release_1) one_function 0 = Ok f /\
    vl (E := release_1) one_function 0 = Ok g /\
    nth_error (sv_ one_function) (Z.to_nat 0) = Some s /\
    nth_error (u_basis_ one_function) (Z.to_nat 0) = Some f /\
    nth_error (v_basis_ one_function) (Z.to_nat 0) = Some g /\
    forall x : Q,
      -1 <= x <= 1 ->
      ulx (E := release_1) one_function 0 x
      = Ok (if Qle_bool 0 x then compute_value f x
            else compute_value f (- x) * parity_sign 0) /\
      vly (E := release_1) one_function 0 x
      = Ok (if Qle_bool 0 x then compute_value g x
            else compute_value g (- x) * parity_sign 0).
Proof.
  apply (facade_accepts_valid_arguments (E := release_1) one_function 0).
  - cbn. lia.
  - reflexivity.
  - reflexivity.
Defined.

Lemma constructed_basis_is_not_empty_witness :
  exists b,
    new_ir_basis_set (E := release_2) (fermionic 1) 3 (1 # 10) 1 = Ok b /\
    (1 <= dim b)%Z /\
    size (sv_ b) = dim b /\ size (v_basis_ b) = dim b /\
    (dim b <= to_size_t 3)%Z /\
    ((0 <= 3 < 2 ^ 31)%Z -> (dim b <= 3)%Z) /\
    3%Z <> 0%Z /\
    statistics_ b = get_statistics (fermionic 1).
Proof.
  eexists. split; [vm_compute; reflexivity |].
  eapply (constructed_basis_is_not_empty (E := release_2)
            (fermionic 1) 3 (1 # 10) 1 _).
  vm_compute. reflexivity.
Defined.

Lemma stored_values_do_not_increase_witness :
  exists b,
    new_ir_basis_set (E := release_2) (fermionic 1) 3 (1 # 10) 1 = Ok b /\
    exists a a' : Q,
      sl (E := release_2) b 0 = Ok a /\
      sl (E := release_2) b (0 + 1) = Ok a' /\ a' <= a.
Proof.
  eexists. split; [vm_compute; reflexivity |].
  eapply (stored_values_do_not_increase (E := release_2)
            (fermionic 1) 3 (1 # 10) 1 _ 0).
  - vm_compute. reflexivity.
  - lia.
  - cbn. lia.
Defined.

Lemma endpoint_values_through_facade_witness :
  exists b,
    new_ir_basis_set (E := release_2) (fermionic 1) 3 (1 # 10) 1 = Ok b /\
    exists a : Q,
      ulx (E := release_2) b 1 1 = Ok a /\ 0 <= a /\
      ulx (E := release_2) b 1 (-1) = Ok (a * parity_sign 1).
Proof.
  eexists. split; [vm_compute; reflexivity |].
  eapply (endpoint_values_through_facade (E := release_2)
            (fermionic 1) 3 (1 # 10) 1 _ 1 segments_scale_value).
  - vm_compute. reflexivity.
  - cbn. lia.
Defined.

End FurtherRuns.

(** * The construction as a function *)

Module Outcomes.
Import Outcome Truncation Basis Functional.
Import TruncationFacts BasisFacts Polynomials.
Import Model.
Local Open Scope Q_scope.

Section OfTheConstruction.

Context {pp : Type} {PP : PiecewisePolynomial pp} {E : Externals pp}.



End OfTheConstruction.


End Outcomes.
